(** * The peer replication and heartbeat engine of the Raft node (peer.go)

    A shallow embedding of [Peer]: its replication cursor [prevLogIndex],
    the two send paths of a flush, and the heartbeat loop.  The node, its
    log, the transport, the timer and the two node-owned channels are
    collaborators of the peer; each attempt of the loop sees them through
    one [World]. *)

From Stdlib Require Import ZArith List String Bool Lia Sorted.
Import ListNotations.
Open Scope Z_scope.

(** ** Machine integers *)

(** Go's [uint64], carried in [Z]. *)
Definition u64 (x : Z) : Prop := 0 <= x < 2 ^ 64.

Definition wrap64 (x : Z) : Z := x mod 2 ^ 64.

(** ** Values exchanged with the collaborators *)

(** Go's [error]: [nil], or the text of [errors.New]. *)
Definition error : Type := option string.

Definition errors_New (msg : string) : error := Some msg.

(** Only the fields that peer.go reads are kept. *)
Record LogEntry : Type := mkLogEntry { Index : Z }.

(** [Entries] holds the entries themselves: a request is taken to hold no
    nil entry. *)
Record AppendEntriesRequest : Type := mkAppendEntriesRequest
  { Entries : list LogEntry }.

Record SnapshotRequest : Type := mkSnapshotRequest { LastIndex : Z }.

Module AppendEntriesResponse.
Record t : Type := mk { Term : Z; Success : bool; CommitIndex : Z }.
End AppendEntriesResponse.

Module SnapshotResponse.
Record t : Type := mk { Term : Z; Success : bool }.
End SnapshotResponse.

(** ** The peer *)

(** [server], [mutex] and [heartbeatTimer] are references to collaborators;
    they are reached through the [World]. *)
Record Peer : Type := mkPeer { name : string; prevLogIndex : Z }.

Definition set_prevLogIndex (p : Peer) (i : Z) : Peer :=
  {| name := name p; prevLogIndex := i |}.

(** [f.peer] points back at the peer; the peer's name stands for it. *)
Record FlushResponse : Type := mkFlushResponse
  { term : Z; success : bool; err : error; peer : string }.

(** ** Collaborators *)

Record Server : Type := mkServer
  { currentTerm : Z;
    (** [p.server.log.CommitIndex()] *)
    commitIndex : Z;
    createAppendEntriesRequest : Z -> option AppendEntriesRequest;
    createSnapshotRequest : option SnapshotRequest }.

(** A call of the transport is taken to return. *)
Record Transporter : Type := mkTransporter
  { SendAppendEntriesRequest :
      Server -> Peer -> AppendEntriesRequest ->
      option AppendEntriesResponse.t * error;
    SendSnapshotRequest :
      Server -> Peer -> SnapshotRequest ->
      option SnapshotResponse.t * error }.

(** What one attempt of the heartbeat loop meets. *)
Record World : Type := mkWorld
  { server : Server;
    transporter : Transporter;
    (** result of [p.heartbeatTimer.Start()] *)
    timerStart : bool;
    (** the [time.After] goroutine writes to [respChan] first *)
    timeoutFirst : bool;
    (** the [select] finds [p.server.stepDown] ready to take a value *)
    stepDownReady : bool;
    (** a receiver takes the value sent on [p.server.response] *)
    responseReceived : bool }.

(** ** Effects *)

Inductive Event : Type :=
| EvCreateAppendEntriesRequest (prev : Z)
| EvCreateSnapshotRequest
| EvSendAppendEntriesRequest (req : AppendEntriesRequest)
| EvSendSnapshotRequest (req : SnapshotRequest)
| EvResponse (f : FlushResponse)
| EvStepDown (t : Z) (accepted : bool).

Inductive PanicValue : Type :=
| PanicSnapshotResponse (resp : SnapshotResponse.t)
| PanicIndexOutOfRange.

Inductive Outcome (A : Type) : Type :=
| Returned (a : A)
| Panicked (v : PanicValue).

Arguments Returned {A} a.
Arguments Panicked {A} v.

(** A call: the peer it leaves, what it did to the collaborators, and how
    it ended. *)
Record Run (A : Type) : Type := mkRun
  { peer_after : Peer; trace : list Event; outcome : Outcome A }.

Arguments mkRun {A} _ _ _.
Arguments peer_after {A} _.
Arguments trace {A} _.
Arguments outcome {A} _.

Definition Triple : Type := (Z * bool * error)%type.

Definition before {A : Type} (evs : list Event) (r : Run A) : Run A :=
  mkRun (peer_after r) (evs ++ trace r) (outcome r).

(** ** Flush *)

Definition sendSnapshotRequest (w : World) (p : Peer)
    (req : option SnapshotRequest) : Run Triple :=
  match req with
  | None =>
      mkRun p [] (Returned (0, false, errors_New "raft.Peer: Request required"))
  | Some r =>
      let '(resp, err) := SendSnapshotRequest (transporter w) (server w) p r in
      match resp with
      | None => mkRun p [EvSendSnapshotRequest r] (Returned (0, false, err))
      | Some rs =>
          if SnapshotResponse.Success rs
          then mkRun (set_prevLogIndex p (LastIndex r))
                     [EvSendSnapshotRequest r]
                     (Returned (SnapshotResponse.Term rs,
                                SnapshotResponse.Success rs, err))
          else mkRun p [EvSendSnapshotRequest r]
                     (Panicked (PanicSnapshotResponse rs))
      end
  end.

(** [resp := <-respChan]: the first of the two goroutines to write. *)
Definition raceResponse (w : World) (p : Peer) (req : AppendEntriesRequest)
    : option AppendEntriesResponse.t :=
  if timeoutFirst w then None
  else fst (SendAppendEntriesRequest (transporter w) (server w) p req).

Definition sendFlushRequest (w : World) (p : Peer)
    (req : option AppendEntriesRequest) : Run Triple :=
  match req with
  | None =>
      mkRun p [] (Returned (0, false, errors_New "raft.Peer: Request required"))
  | Some r =>
      let ev := [EvSendAppendEntriesRequest r] in
      match raceResponse w p r with
      | None => mkRun p ev (Returned (0, false, errors_New "Network problem"))
      | Some resp =>
          if AppendEntriesResponse.Success resp then
            if (0 <? List.length (Entries r))%nat then
              match nth_error (Entries r) (List.length (Entries r) - 1)%nat with
              | Some e =>
                  mkRun (set_prevLogIndex p (Index e)) ev
                        (Returned (AppendEntriesResponse.Term resp,
                                   AppendEntriesResponse.Success resp, None))
              | None => mkRun p ev (Panicked PanicIndexOutOfRange)
              end
            else
              mkRun p ev
                    (Returned (AppendEntriesResponse.Term resp,
                               AppendEntriesResponse.Success resp, None))
          else if AppendEntriesResponse.Term resp >? currentTerm (server w) then
            mkRun p ev
                  (Returned (AppendEntriesResponse.Term resp, false,
                             errors_New "Step down"))
          else
            let p' :=
              if AppendEntriesResponse.CommitIndex resp >? prevLogIndex p
              then set_prevLogIndex p (AppendEntriesResponse.CommitIndex resp)
              else if prevLogIndex p >? 0
                   then set_prevLogIndex p (wrap64 (prevLogIndex p - 1))
                   else p in
            mkRun p' ev
                  (Returned (AppendEntriesResponse.Term resp,
                             AppendEntriesResponse.Success resp, None))
      end
  end.

Definition flush (w : World) (p : Peer) : Run Triple :=
  match createAppendEntriesRequest (server w) (prevLogIndex p) with
  | Some req =>
      before [EvCreateAppendEntriesRequest (prevLogIndex p)]
             (sendFlushRequest w p (Some req))
  | None =>
      before [EvCreateAppendEntriesRequest (prevLogIndex p);
              EvCreateSnapshotRequest]
             (sendSnapshotRequest w p (createSnapshotRequest (server w)))
  end.

(** ** Copying *)

Definition clone (p : Peer) : Peer :=
  {| name := name p; prevLogIndex := prevLogIndex p |}.

(** ** Heartbeat *)

Inductive LoopStatus : Type :=
| Waiting                       (* at the timer, no further [World] given *)
| Stopped                       (* [return] *)
| Blocked                       (* in the send on [p.server.response] *)
| Crashed (v : PanicValue).

Record Loop : Type := mkLoop
  { loop_peer : Peer; loop_trace : list Event; loop_status : LoopStatus }.

Definition after (evs : list Event) (l : Loop) : Loop :=
  mkLoop (loop_peer l) (evs ++ loop_trace l) (loop_status l).

Fixpoint heartbeat (ws : list World) (p : Peer) : Loop :=
  match ws with
  | [] => mkLoop p [] Waiting
  | w :: ws' =>
      if timerStart w then
        let r := flush w p in
        let p1 := peer_after r in
        match outcome r with
        | Panicked v => mkLoop p1 (trace r) (Crashed v)
        | Returned (f_term, f_success, f_err) =>
            let f := mkFlushResponse f_term f_success f_err (name p1) in
            if f_success then
              if prevLogIndex p1 >? commitIndex (server w) then
                if responseReceived w
                then after (trace r ++ [EvResponse f]) (heartbeat ws' p1)
                else mkLoop p1 (trace r ++ [EvResponse f]) Blocked
              else after (trace r) (heartbeat ws' p1)
            else if f_term >? currentTerm (server w) then
              mkLoop p1 (trace r ++ [EvStepDown f_term (stepDownReady w)])
                     Stopped
            else after (trace r) (heartbeat ws' p1)
        end
      else mkLoop p [] Stopped
  end.

(** ** Sequences of AppendEntries flushes *)

(** [req.Entries[len(req.Entries)-1]], when there is one. *)
Definition lastEntry (req : AppendEntriesRequest) : option LogEntry :=
  nth_error (Entries req) (List.length (Entries req) - 1)%nat.

(** The flush of [req] meets a non-nil response with [Success] set. *)
Definition succeeds (w : World) (p : Peer) (req : AppendEntriesRequest)
    : bool :=
  match raceResponse w p req with
  | Some resp => AppendEntriesResponse.Success resp
  | None => false
  end.

(** The node hands out a request for the cursor of [p], and its flush
    succeeds. *)
Definition appended (w : World) (p : Peer) : bool :=
  match createAppendEntriesRequest (server w) (prevLogIndex p) with
  | Some req => succeeds w p req
  | None => false
  end.

Fixpoint allAppended (ws : list World) (p : Peer) : bool :=
  match ws with
  | [] => true
  | w :: rest => appended w p && allAppended rest (peer_after (flush w p))
  end.

(** [prevLogIndex] after each flush of the sequence. *)
Fixpoint cursorHistory (ws : list World) (p : Peer) : list Z :=
  match ws with
  | [] => []
  | w :: rest =>
      prevLogIndex (peer_after (flush w p))
      :: cursorHistory rest (peer_after (flush w p))
  end.

(** ** The node's log *)

(** What the node keeps of its log: the entries, and the index up to which
    a snapshot has superseded them. *)
Record Log : Type := mkLog { startIndex : Z; entries : list LogEntry }.

(** Modelled from the spec: [createAppendEntriesRequest] of the node, whose
    source (the server and its log) is not among the files.  The node builds
    the request for the peer's current prevLogIndex: it holds the entries of
    the log after that index; when the log has already discarded the entries
    the peer needs, because a snapshot superseded them, the node returns no
    request. *)
Definition buildAppendEntriesRequest (l : Log) (prev : Z)
    : option AppendEntriesRequest :=
  if prev <? startIndex l then None
  else Some (mkAppendEntriesRequest
               (filter (fun e => prev <? Index e) (entries l))).

(** The node of [w] builds its requests from some log. *)
Definition buildsFromLog (w : World) : Prop :=
  exists l : Log,
    forall prev,
      createAppendEntriesRequest (server w) prev
      = buildAppendEntriesRequest l prev.

(** ** Concrete collaborators, for the examples *)

Definition appendServer (t c : Z) (req : AppendEntriesRequest) : Server :=
  mkServer t c (fun _ => Some req) None.

Definition snapshotServer (t c : Z) (req : SnapshotRequest) : Server :=
  mkServer t c (fun _ => None) (Some req).

Definition answering (a : option AppendEntriesResponse.t)
    (s : option SnapshotResponse.t) : Transporter :=
  mkTransporter (fun _ _ _ => (a, None)) (fun _ _ _ => (s, None)).

(** The timer fires, the transport wins the race, both channels are served. *)
Definition firing (sv : Server) (tr : Transporter) : World :=
  mkWorld sv tr true false true true.

Definition entriesAt (ixs : list Z) : AppendEntriesRequest :=
  mkAppendEntriesRequest (map mkLogEntry ixs).

Definition peerAt (i : Z) : Peer := mkPeer "n2" i.

Definition okAppend (t : Z) : option AppendEntriesResponse.t :=
  Some (AppendEntriesResponse.mk t true 0).

Definition failedAppend (t c : Z) : option AppendEntriesResponse.t :=
  Some (AppendEntriesResponse.mk t false c).

(** A node in term 2 with nothing new to send, and a peer that refuses
    in that same term. *)
Definition mismatchWorld : World :=
  firing (appendServer 2 0 (entriesAt [])) (answering (failedAppend 2 0) None).

(** The same node, and a peer that refuses from term 3. *)
Definition newerTermWorld : World :=
  firing (appendServer 2 0 (entriesAt [])) (answering (failedAppend 3 0) None).

(** The timeout goroutine writes first. *)
Definition timedOutWorld : World :=
  mkWorld (appendServer 2 0 (entriesAt [6; 7])) (answering (okAppend 2) None)
          true true true true.

(** Entries 6 and 7 are sent and acknowledged; nothing is committed yet. *)
Definition advanceWorld : World :=
  firing (appendServer 2 0 (entriesAt [6; 7])) (answering (okAppend 2) None).

(** The log no longer holds what the peer needs; the snapshot up to index 9
    is installed by the peer. *)
Definition installedWorld : World :=
  firing (snapshotServer 2 0 (mkSnapshotRequest 9))
         (answering None (Some (SnapshotResponse.mk 2 true))).

(** The same snapshot, refused by the peer. *)
Definition refusedWorld : World :=
  firing (snapshotServer 2 0 (mkSnapshotRequest 9))
         (answering None (Some (SnapshotResponse.mk 2 false))).

(** A refusal in the current term from a peer that has committed up to
    index 10. *)
Definition correctionWorld : World :=
  firing (appendServer 2 0 (entriesAt [])) (answering (failedAppend 2 10) None).

(** A node in term 2 whose log holds the entries up to index [n], and a
    peer that acknowledges what it is sent. *)
Definition logUpTo (n : nat) : Log :=
  mkLog 0 (map (fun i => mkLogEntry (Z.of_nat i)) (seq 1 n)).

Definition replicatingWorld (n : nat) : World :=
  firing (mkServer 2 0 (buildAppendEntriesRequest (logUpTo n)) None)
         (answering (okAppend 2) None).

(** ** One turn of the loop *)

(** The body of the [for] of [heartbeat], run once: [Waiting] when the loop
    goes back to the timer. *)
Inductive TurnShape (w : World) (p : Peer) : Loop -> Prop :=
| TurnTimerStopped :
    timerStart w = false ->
    TurnShape w p (mkLoop p [] Stopped)
| TurnCrashed (v : PanicValue) :
    timerStart w = true ->
    outcome (flush w p) = Panicked v ->
    TurnShape w p (mkLoop (peer_after (flush w p)) (trace (flush w p))
                          (Crashed v))
| TurnQuiet (t : Z) (s : bool) (e : error) :
    timerStart w = true ->
    outcome (flush w p) = Returned (t, s, e) ->
    (s = true -> prevLogIndex (peer_after (flush w p))
                 <= commitIndex (server w)) ->
    (s = false -> t <= currentTerm (server w)) ->
    TurnShape w p (mkLoop (peer_after (flush w p)) (trace (flush w p))
                          Waiting)
| TurnNotified (t : Z) (e : error) :
    timerStart w = true ->
    outcome (flush w p) = Returned (t, true, e) ->
    prevLogIndex (peer_after (flush w p)) > commitIndex (server w) ->
    TurnShape w p
      (mkLoop (peer_after (flush w p))
              (trace (flush w p)
               ++ [EvResponse (mkFlushResponse t true e
                                 (name (peer_after (flush w p))))])
              (if responseReceived w then Waiting else Blocked))
| TurnSteppedDown (t : Z) (e : error) :
    timerStart w = true ->
    outcome (flush w p) = Returned (t, false, e) ->
    t > currentTerm (server w) ->
    TurnShape w p
      (mkLoop (peer_after (flush w p))
              (trace (flush w p) ++ [EvStepDown t (stepDownReady w)])
              Stopped).

(** ** Observations on traces *)

Definition isTransportCall (e : Event) : bool :=
  match e with
  | EvSendAppendEntriesRequest _ | EvSendSnapshotRequest _ => true
  | _ => false
  end.

Definition transportCalls (evs : list Event) : nat :=
  List.length (filter isTransportCall evs).

Definition isNotification (e : Event) : bool :=
  match e with
  | EvResponse _ | EvStepDown _ _ => true
  | _ => false
  end.

(** ** Assumptions on the collaborators *)

(** Every index the collaborators hand to the peer lies between 0 and
    [B]. *)
Definition boundedWorld (B : Z) (w : World) : Prop :=
  (forall i req e,
      createAppendEntriesRequest (server w) i = Some req ->
      In e (Entries req) -> 0 <= Index e <= B)
  /\ (forall p req resp,
         fst (SendAppendEntriesRequest (transporter w) (server w) p req)
         = Some resp ->
         0 <= AppendEntriesResponse.CommitIndex resp <= B)
  /\ (forall r,
         createSnapshotRequest (server w) = Some r -> 0 <= LastIndex r <= B).

(** The timer fires and the peer refuses, in a term that is not newer,
    reporting that it has committed nothing. *)
Definition refusesAtZero (w : World) : Prop :=
  timerStart w = true
  /\ forall p, exists req resp,
      createAppendEntriesRequest (server w) (prevLogIndex p) = Some req
      /\ raceResponse w p req = Some resp
      /\ AppendEntriesResponse.Success resp = false
      /\ AppendEntriesResponse.Term resp <= currentTerm (server w)
      /\ AppendEntriesResponse.CommitIndex resp = 0.

(** The timer fires, a request is built for [p] and nothing comes back. *)
Definition unanswered (p : Peer) (w : World) : Prop :=
  timerStart w = true
  /\ u64 (currentTerm (server w))
  /\ exists req,
      createAppendEntriesRequest (server w) (prevLogIndex p) = Some req
      /\ raceResponse w p req = None.

(** ** Vote dispatch *)

(** [rest] stands for the fields that peer.go does not touch. *)
Module RequestVoteRequest.
Record t (B : Type) : Type := mk { peer : option string; rest : B }.
Arguments mk {B} _ _.
Arguments peer {B} _.
Arguments rest {B} _.
End RequestVoteRequest.

Module RequestVoteResponse.
Record t (B : Type) : Type := mk { peer : option string; rest : B }.
Arguments mk {B} _ _.
Arguments peer {B} _.
Arguments rest {B} _.
End RequestVoteResponse.

Inductive VoteEvent (Q R : Type) : Type :=
| EvSendVoteRequest (req : RequestVoteRequest.t Q)
| EvVote (resp : RequestVoteResponse.t R).

Arguments EvSendVoteRequest {Q R} req.
Arguments EvVote {Q R} resp.

Inductive VoteStatus : Type :=
| VoteReturned
| VoteBlocked                   (* in the send on [c] *)
| VoteNilDereference.           (* [req.peer = p] on a nil [req] *)

(** [vote_request]: the caller's request object as the call leaves it. *)
Record VoteRun (Q R : Type) : Type := mkVoteRun
  { vote_request : option (RequestVoteRequest.t Q);
    vote_trace : list (VoteEvent Q R);
    vote_status : VoteStatus }.

Arguments mkVoteRun {Q R} _ _ _.
Arguments vote_request {Q R} _.
Arguments vote_trace {Q R} _.
Arguments vote_status {Q R} _.

Definition VoteTransport (Q R : Type) : Type :=
  Server -> Peer -> RequestVoteRequest.t Q ->
  option (RequestVoteResponse.t R) * error.

(** [received]: a receiver takes the value sent on [c]. *)
Definition sendVoteRequest {Q R : Type} (SendVoteRequest : VoteTransport Q R)
    (sv : Server) (received : bool) (p : Peer)
    (req : option (RequestVoteRequest.t Q)) : VoteRun Q R :=
  match req with
  | None => mkVoteRun None [] VoteNilDereference
  | Some r =>
      let r1 := RequestVoteRequest.mk (Some (name p))
                                      (RequestVoteRequest.rest r) in
      match fst (SendVoteRequest sv p r1) with
      | Some resp =>
          let resp1 := RequestVoteResponse.mk (Some (name p))
                                              (RequestVoteResponse.rest resp) in
          mkVoteRun (Some r1) [EvSendVoteRequest r1; EvVote resp1]
                    (if received then VoteReturned else VoteBlocked)
      | None => mkVoteRun (Some r1) [EvSendVoteRequest r1] VoteReturned
      end
  end.

(** Worlds for the examples of the loop. *)
Definition emptyHandedWorld : World :=
  firing (mkServer 2 0 (fun _ => None) None) (answering None None).

(** The peer has committed up to index 7, where the cursor already is. *)
Definition sameCommitWorld : World :=
  firing (appendServer 2 0 (entriesAt [])) (answering (failedAppend 2 7) None).

(** ** The scenario of the specification, run on the model *)

(** [prevLogIndex] 5, entries 6 and 7 acknowledged: the cursor is 7. *)
Example scenario_flush_1 :
  prevLogIndex
    (peer_after (flush (firing (appendServer 2 0 (entriesAt [6; 7]))
                               (answering (okAppend 2) None))
                       (peerAt 5))) = 7.
Proof. reflexivity. Qed.

(** No entries, refused in the current term: one step back, to 6. *)
Example scenario_flush_2 :
  flush (firing (appendServer 2 0 (entriesAt []))
                (answering (failedAppend 2 0) None))
        (peerAt 7)
  = mkRun (peerAt 6)
          [EvCreateAppendEntriesRequest 7;
           EvSendAppendEntriesRequest (entriesAt [])]
          (Returned (2, false, None)).
Proof. reflexivity. Qed.

(** Refused from term 3: the loop stops, whatever would come next. *)
Example scenario_flush_3 :
  forall ws,
    heartbeat (firing (appendServer 2 0 (entriesAt []))
                      (answering (failedAppend 3 0) None) :: ws)
              (peerAt 6)
    = mkLoop (peerAt 6)
             [EvCreateAppendEntriesRequest 6;
              EvSendAppendEntriesRequest (entriesAt []);
              EvStepDown 3 true]
             Stopped.
Proof. reflexivity. Qed.

(** ** Basic facts *)

Lemma gtb_true (a b : Z) : a > b -> (a >? b) = true.
Proof. intros H. destruct (Z.gtb_spec a b); [reflexivity | lia]. Qed.

Lemma gtb_false (a b : Z) : a <= b -> (a >? b) = false.
Proof. intros H. destruct (Z.gtb_spec a b); [lia | reflexivity]. Qed.

Lemma wrap64_pred (x : Z) : u64 x -> x > 0 -> wrap64 (x - 1) = x - 1.
Proof. unfold u64, wrap64. intros H H0. apply Z.mod_small. lia. Qed.

Lemma wrap64_pred_le (x : Z) : x > 0 -> 0 <= wrap64 (x - 1) <= x - 1.
Proof.
  unfold wrap64. intros H. split.
  - apply Z.mod_pos_bound. lia.
  - apply Z.mod_le; lia.
Qed.

(** The race yields nothing exactly when the timeout wrote first or the
    transport handed back nil. *)
Lemma raceResponse_none (w : World) (p : Peer) (req : AppendEntriesRequest) :
  raceResponse w p req = None <->
  timeoutFirst w = true \/
  fst (SendAppendEntriesRequest (transporter w) (server w) p req) = None.
Proof.
  unfold raceResponse. destruct (timeoutFirst w); split; intros H.
  - now left.
  - reflexivity.
  - now right.
  - destruct H as [H | H]; [discriminate | exact H].
Qed.

(** Behind the guard [len(req.Entries) > 0] the index is in range. *)
Lemma lastEntry_last (req : AppendEntriesRequest) (d : LogEntry) :
  Entries req <> [] -> lastEntry req = Some (last (Entries req) d).
Proof.
  unfold lastEntry. destruct req as [es]. cbn [Entries].
  intros Hne. destruct (exists_last Hne) as [front [e ->]].
  rewrite last_last, length_app. cbn [List.length].
  rewrite nth_error_app2 by lia.
  replace (List.length front + 1 - 1 - List.length front)%nat with 0%nat by lia.
  reflexivity.
Qed.

Lemma lastEntry_nil (req : AppendEntriesRequest) :
  Entries req = [] -> lastEntry req = None.
Proof. unfold lastEntry. intros ->. reflexivity. Qed.

Lemma lastEntry_In (r : AppendEntriesRequest) (e : LogEntry) :
  lastEntry r = Some e -> In e (Entries r).
Proof. unfold lastEntry. apply nth_error_In. Qed.

Lemma entries_guard (req : AppendEntriesRequest) :
  (0 <? List.length (Entries req))%nat = true <-> Entries req <> [].
Proof.
  rewrite Nat.ltb_lt. destruct (Entries req); cbn; split; intros H;
    try lia; try discriminate; congruence.
Qed.

(** The three ways a response can be handled, as equations. *)
Lemma sendFlushRequest_success (w : World) (p : Peer)
    (req : AppendEntriesRequest) (resp : AppendEntriesResponse.t) :
  raceResponse w p req = Some resp ->
  AppendEntriesResponse.Success resp = true ->
  sendFlushRequest w p (Some req)
  = mkRun (match lastEntry req with
           | Some e => set_prevLogIndex p (Index e)
           | None => p
           end)
          [EvSendAppendEntriesRequest req]
          (Returned (AppendEntriesResponse.Term resp, true, None)).
Proof.
  intros Hr Hs. unfold sendFlushRequest. rewrite Hr, Hs.
  destruct (0 <? List.length (Entries req))%nat eqn:Hg.
  - apply entries_guard in Hg.
    rewrite (lastEntry_last req (mkLogEntry 0) Hg).
    pose proof (lastEntry_last req (mkLogEntry 0) Hg) as Hl.
    unfold lastEntry in Hl. rewrite Hl. reflexivity.
  - assert (Entries req = []) as Hnil.
    { destruct (Entries req); [reflexivity | discriminate]. }
    rewrite (lastEntry_nil req Hnil). reflexivity.
Qed.

Lemma sendFlushRequest_step_down (w : World) (p : Peer)
    (req : AppendEntriesRequest) (resp : AppendEntriesResponse.t) :
  raceResponse w p req = Some resp ->
  AppendEntriesResponse.Success resp = false ->
  AppendEntriesResponse.Term resp > currentTerm (server w) ->
  sendFlushRequest w p (Some req)
  = mkRun p [EvSendAppendEntriesRequest req]
          (Returned (AppendEntriesResponse.Term resp, false,
                     errors_New "Step down")).
Proof.
  intros Hr Hs Ht. unfold sendFlushRequest.
  rewrite Hr, Hs, (gtb_true _ _ Ht). reflexivity.
Qed.

Lemma sendFlushRequest_mismatch (w : World) (p : Peer)
    (req : AppendEntriesRequest) (resp : AppendEntriesResponse.t) :
  raceResponse w p req = Some resp ->
  AppendEntriesResponse.Success resp = false ->
  AppendEntriesResponse.Term resp <= currentTerm (server w) ->
  sendFlushRequest w p (Some req)
  = mkRun (if AppendEntriesResponse.CommitIndex resp >? prevLogIndex p
           then set_prevLogIndex p (AppendEntriesResponse.CommitIndex resp)
           else if prevLogIndex p >? 0
                then set_prevLogIndex p (wrap64 (prevLogIndex p - 1))
                else p)
          [EvSendAppendEntriesRequest req]
          (Returned (AppendEntriesResponse.Term resp, false, None)).
Proof.
  intros Hr Hs Ht. unfold sendFlushRequest.
  rewrite Hr, Hs, (gtb_false _ _ Ht). reflexivity.
Qed.

(** ** One turn of the heartbeat loop, by the result of its flush *)

Section Turn.

Variables (w : World) (ws : list World) (p : Peer).
Hypothesis fired : timerStart w = true.

Lemma heartbeat_step_down (t : Z) (e : error) :
  outcome (flush w p) = Returned (t, false, e) ->
  t > currentTerm (server w) ->
  heartbeat (w :: ws) p
  = mkLoop (peer_after (flush w p))
           (trace (flush w p) ++ [EvStepDown t (stepDownReady w)])
           Stopped.
Proof.
  intros Ho Ht. cbn [heartbeat]. rewrite fired, Ho, (gtb_true _ _ Ht).
  reflexivity.
Qed.

Lemma heartbeat_absorbs (t : Z) (e : error) :
  outcome (flush w p) = Returned (t, false, e) ->
  t <= currentTerm (server w) ->
  heartbeat (w :: ws) p
  = after (trace (flush w p)) (heartbeat ws (peer_after (flush w p))).
Proof.
  intros Ho Ht. cbn [heartbeat]. rewrite fired, Ho, (gtb_false _ _ Ht).
  reflexivity.
Qed.

Lemma heartbeat_quiet (t : Z) (e : error) :
  outcome (flush w p) = Returned (t, true, e) ->
  prevLogIndex (peer_after (flush w p)) <= commitIndex (server w) ->
  heartbeat (w :: ws) p
  = after (trace (flush w p)) (heartbeat ws (peer_after (flush w p))).
Proof.
  intros Ho Hc. cbn [heartbeat]. rewrite fired, Ho, (gtb_false _ _ Hc).
  reflexivity.
Qed.

Lemma heartbeat_notifies (t : Z) (e : error) :
  outcome (flush w p) = Returned (t, true, e) ->
  prevLogIndex (peer_after (flush w p)) > commitIndex (server w) ->
  heartbeat (w :: ws) p
  = let p1 := peer_after (flush w p) in
    let evs := trace (flush w p)
               ++ [EvResponse (mkFlushResponse t true e (name p1))] in
    if responseReceived w then after evs (heartbeat ws p1)
    else mkLoop p1 evs Blocked.
Proof.
  intros Ho Hc. cbn [heartbeat]. rewrite fired, Ho, (gtb_true _ _ Hc).
  reflexivity.
Qed.

Lemma heartbeat_crashes (v : PanicValue) :
  outcome (flush w p) = Panicked v ->
  heartbeat (w :: ws) p
  = mkLoop (peer_after (flush w p)) (trace (flush w p)) (Crashed v).
Proof. intros Ho. cbn [heartbeat]. rewrite fired, Ho. reflexivity. Qed.

End Turn.

Lemma flush_append (w : World) (p : Peer) (req : AppendEntriesRequest) :
  createAppendEntriesRequest (server w) (prevLogIndex p) = Some req ->
  flush w p
  = before [EvCreateAppendEntriesRequest (prevLogIndex p)]
           (sendFlushRequest w p (Some req)).
Proof. intros H. unfold flush. rewrite H. reflexivity. Qed.

Lemma flush_snapshot (w : World) (p : Peer) :
  createAppendEntriesRequest (server w) (prevLogIndex p) = None ->
  flush w p
  = before [EvCreateAppendEntriesRequest (prevLogIndex p);
            EvCreateSnapshotRequest]
           (sendSnapshotRequest w p (createSnapshotRequest (server w))).
Proof. intros H. unfold flush. rewrite H. reflexivity. Qed.

(** ** Nil requests *)

(** C6: with a nil request both send paths return
    (0, false, "raft.Peer: Request required"); the trace is empty, so no
    transport call was made, and the peer is the one that was passed in. *)
Theorem nil_request_rejected (w : World) (p : Peer) :
  sendFlushRequest w p None
  = mkRun p [] (Returned (0, false, errors_New "raft.Peer: Request required"))
  /\ sendSnapshotRequest w p None
     = mkRun p [] (Returned (0, false,
                             errors_New "raft.Peer: Request required")).
Proof. split; reflexivity. Qed.

(** ** Failed AppendEntries responses *)

(** C10: a non-nil response with Success=false and Term no greater than
    currentTerm makes sendFlushRequest return (resp.Term, false, nil): the
    error is nil although success is false. *)
Theorem mismatch_returns_nil_error (w : World) (p : Peer)
    (req : AppendEntriesRequest) (resp : AppendEntriesResponse.t) :
  raceResponse w p req = Some resp ->
  AppendEntriesResponse.Success resp = false ->
  AppendEntriesResponse.Term resp <= currentTerm (server w) ->
  outcome (sendFlushRequest w p (Some req))
  = Returned (AppendEntriesResponse.Term resp, false, None).
Proof.
  intros Hr Hs Ht. rewrite (sendFlushRequest_mismatch w p req resp Hr Hs Ht).
  reflexivity.
Qed.

Lemma mismatch_returns_nil_error_witness :
  outcome (sendFlushRequest mismatchWorld (peerAt 7) (Some (entriesAt [])))
  = Returned (2, false, None).
Proof.
  apply (mismatch_returns_nil_error mismatchWorld (peerAt 7) (entriesAt [])
           (AppendEntriesResponse.mk 2 false 0)).
  - reflexivity.
  - reflexivity.
  - cbn. lia.
Defined.

(** C3: on a non-nil response with Success=false and Term no greater than
    currentTerm, a CommitIndex above prevLogIndex becomes the new
    prevLogIndex; otherwise a positive prevLogIndex goes down by exactly one
    and a zero prevLogIndex stays zero; the result is never negative. *)
Theorem mismatch_adjusts_cursor (w : World) (p : Peer)
    (req : AppendEntriesRequest) (resp : AppendEntriesResponse.t) :
  u64 (prevLogIndex p) ->
  raceResponse w p req = Some resp ->
  AppendEntriesResponse.Success resp = false ->
  AppendEntriesResponse.Term resp <= currentTerm (server w) ->
  let p' := peer_after (sendFlushRequest w p (Some req)) in
  (AppendEntriesResponse.CommitIndex resp > prevLogIndex p ->
   prevLogIndex p' = AppendEntriesResponse.CommitIndex resp)
  /\ (AppendEntriesResponse.CommitIndex resp <= prevLogIndex p ->
      prevLogIndex p > 0 -> prevLogIndex p' = prevLogIndex p - 1)
  /\ (AppendEntriesResponse.CommitIndex resp <= prevLogIndex p ->
      prevLogIndex p = 0 -> prevLogIndex p' = 0)
  /\ 0 <= prevLogIndex p'
  /\ name p' = name p.
Proof.
  intros Hu Hr Hs Ht p'. subst p'.
  rewrite (sendFlushRequest_mismatch w p req resp Hr Hs Ht).
  cbn [peer_after].
  destruct (Z.gtb_spec (AppendEntriesResponse.CommitIndex resp)
                       (prevLogIndex p)) as [Hc | Hc];
    destruct (Z.gtb_spec (prevLogIndex p) 0) as [Hp | Hp];
    cbn [set_prevLogIndex prevLogIndex name];
    try rewrite (wrap64_pred _ Hu) by lia;
    unfold u64 in Hu; repeat split; intros; try lia.
Qed.

Lemma mismatch_adjusts_cursor_witness :
  prevLogIndex (peer_after (sendFlushRequest mismatchWorld (peerAt 7)
                                             (Some (entriesAt [])))) = 6.
Proof.
  destruct (mismatch_adjusts_cursor mismatchWorld (peerAt 7) (entriesAt [])
              (AppendEntriesResponse.mk 2 false 0)) as (_ & Hdec & _).
  - unfold u64. cbn. lia.
  - reflexivity.
  - reflexivity.
  - cbn. lia.
  - apply Hdec; cbn; lia.
Defined.

(** ** What a send writes to the trace *)

Lemma sendFlushRequest_trace (w : World) (p : Peer)
    (req : option AppendEntriesRequest) :
  trace (sendFlushRequest w p req)
  = match req with
    | Some r => [EvSendAppendEntriesRequest r]
    | None => []
    end.
Proof.
  unfold sendFlushRequest. destruct req as [r |]; [| reflexivity].
  repeat match goal with
         | |- context [match ?x with _ => _ end] => destruct x
         end; reflexivity.
Qed.

Lemma sendSnapshotRequest_trace (w : World) (p : Peer)
    (req : option SnapshotRequest) :
  trace (sendSnapshotRequest w p req)
  = match req with
    | Some r => [EvSendSnapshotRequest r]
    | None => []
    end.
Proof.
  unfold sendSnapshotRequest. destruct req as [r |]; [| reflexivity].
  destruct (SendSnapshotRequest (transporter w) (server w) p r) as [[rs |] e];
    [destruct (SnapshotResponse.Success rs) |]; reflexivity.
Qed.

Lemma flush_trace (w : World) (p : Peer) :
  trace (flush w p)
  = match createAppendEntriesRequest (server w) (prevLogIndex p) with
    | Some req =>
        [EvCreateAppendEntriesRequest (prevLogIndex p);
         EvSendAppendEntriesRequest req]
    | None =>
        [EvCreateAppendEntriesRequest (prevLogIndex p);
         EvCreateSnapshotRequest]
        ++ match createSnapshotRequest (server w) with
           | Some r => [EvSendSnapshotRequest r]
           | None => []
           end
    end.
Proof.
  unfold flush.
  destruct (createAppendEntriesRequest (server w) (prevLogIndex p));
    cbn [before trace].
  - rewrite sendFlushRequest_trace. reflexivity.
  - rewrite sendSnapshotRequest_trace. reflexivity.
Qed.

Lemma flush_trace_no_response (w : World) (p : Peer) (g : FlushResponse) :
  ~ In (EvResponse g) (trace (flush w p)).
Proof.
  rewrite flush_trace.
  destruct (createAppendEntriesRequest (server w) (prevLogIndex p));
    [| destruct (createSnapshotRequest (server w))];
    cbn; intros H; repeat destruct H as [H | H]; try discriminate; exact H.
Qed.

(** ** Step down *)

(** C4: a non-nil response with Success=false and a Term above currentTerm
    makes sendFlushRequest return (resp.Term, false, "Step down") with the
    peer untouched; the loop turn that runs this flush tries the step-down
    channel once and stops, whether the channel took the term or not, and
    whatever further turns were possible. *)
Theorem step_down_short_circuit (w : World) (ws : list World) (p : Peer)
    (req : AppendEntriesRequest) (resp : AppendEntriesResponse.t) :
  raceResponse w p req = Some resp ->
  AppendEntriesResponse.Success resp = false ->
  AppendEntriesResponse.Term resp > currentTerm (server w) ->
  sendFlushRequest w p (Some req)
  = mkRun p [EvSendAppendEntriesRequest req]
          (Returned (AppendEntriesResponse.Term resp, false,
                     errors_New "Step down"))
  /\ (timerStart w = true ->
      createAppendEntriesRequest (server w) (prevLogIndex p) = Some req ->
      heartbeat (w :: ws) p
      = mkLoop p
               [EvCreateAppendEntriesRequest (prevLogIndex p);
                EvSendAppendEntriesRequest req;
                EvStepDown (AppendEntriesResponse.Term resp)
                           (stepDownReady w)]
               Stopped).
Proof.
  intros Hr Hs Ht.
  pose proof (sendFlushRequest_step_down w p req resp Hr Hs Ht) as Hsend.
  split; [exact Hsend |].
  intros Hfire Hreq.
  assert (flush w p
          = mkRun p [EvCreateAppendEntriesRequest (prevLogIndex p);
                     EvSendAppendEntriesRequest req]
                  (Returned (AppendEntriesResponse.Term resp, false,
                             errors_New "Step down"))) as Hflush.
  { rewrite (flush_append w p req Hreq), Hsend. reflexivity. }
  rewrite (heartbeat_step_down w ws p Hfire
             (AppendEntriesResponse.Term resp) (errors_New "Step down"));
    try rewrite Hflush; [reflexivity | reflexivity | exact Ht].
Qed.

Lemma step_down_short_circuit_witness :
  heartbeat [newerTermWorld; mismatchWorld] (peerAt 6)
  = mkLoop (peerAt 6)
           [EvCreateAppendEntriesRequest 6;
            EvSendAppendEntriesRequest (entriesAt []);
            EvStepDown 3 true]
           Stopped.
Proof.
  apply (step_down_short_circuit newerTermWorld [mismatchWorld] (peerAt 6)
           (entriesAt []) (AppendEntriesResponse.mk 3 false 0)).
  - reflexivity.
  - reflexivity.
  - cbn. lia.
  - reflexivity.
  - reflexivity.
Defined.

(** ** Network problems *)

(** C5: when the timeout wrote first or the transport handed back nil, the
    flush returns (0, false, "Network problem") and leaves the peer as it
    was; the loop turn that runs it goes on to the next timer cycle with
    that same peer. *)
Theorem network_problem_absorbed (w : World) (ws : list World) (p : Peer)
    (req : AppendEntriesRequest) :
  timeoutFirst w = true \/
  fst (SendAppendEntriesRequest (transporter w) (server w) p req) = None ->
  sendFlushRequest w p (Some req)
  = mkRun p [EvSendAppendEntriesRequest req]
          (Returned (0, false, errors_New "Network problem"))
  /\ (u64 (currentTerm (server w)) ->
      timerStart w = true ->
      createAppendEntriesRequest (server w) (prevLogIndex p) = Some req ->
      heartbeat (w :: ws) p
      = after [EvCreateAppendEntriesRequest (prevLogIndex p);
               EvSendAppendEntriesRequest req]
              (heartbeat ws p)).
Proof.
  intros Hnone. apply raceResponse_none in Hnone.
  assert (sendFlushRequest w p (Some req)
          = mkRun p [EvSendAppendEntriesRequest req]
                  (Returned (0, false, errors_New "Network problem")))
    as Hsend.
  { unfold sendFlushRequest. rewrite Hnone. reflexivity. }
  split; [exact Hsend |].
  intros Hu Hfire Hreq.
  assert (flush w p
          = mkRun p [EvCreateAppendEntriesRequest (prevLogIndex p);
                     EvSendAppendEntriesRequest req]
                  (Returned (0, false, errors_New "Network problem")))
    as Hflush.
  { rewrite (flush_append w p req Hreq), Hsend. reflexivity. }
  rewrite (heartbeat_absorbs w ws p Hfire 0 (errors_New "Network problem"));
    try rewrite Hflush; [reflexivity | reflexivity |].
  unfold u64 in Hu. lia.
Qed.

Lemma network_problem_absorbed_witness :
  heartbeat [timedOutWorld; newerTermWorld] (peerAt 5)
  = after [EvCreateAppendEntriesRequest 5;
           EvSendAppendEntriesRequest (entriesAt [6; 7])]
          (heartbeat [newerTermWorld] (peerAt 5)).
Proof.
  apply (network_problem_absorbed timedOutWorld [newerTermWorld] (peerAt 5)
           (entriesAt [6; 7])).
  - left. reflexivity.
  - unfold u64. cbn. lia.
  - reflexivity.
  - reflexivity.
Defined.

(** ** Commit notification *)

(** C9: in a loop turn whose flush returned, the FlushResponse goes out on
    the node's response channel exactly when the flush succeeded and the
    peer's prevLogIndex is above the log's CommitIndex(); a successful flush
    that does not meet this sends nothing and the loop goes on to the next
    turn. *)
Theorem commit_notification (w : World) (ws : list World) (p : Peer)
    (t : Z) (s : bool) (e : error) :
  timerStart w = true ->
  outcome (flush w p) = Returned (t, s, e) ->
  (forall g,
      In (EvResponse g) (loop_trace (heartbeat [w] p)) <->
      g = mkFlushResponse t s e (name (peer_after (flush w p)))
      /\ s = true
      /\ prevLogIndex (peer_after (flush w p)) > commitIndex (server w))
  /\ (s = true ->
      prevLogIndex (peer_after (flush w p)) <= commitIndex (server w) ->
      heartbeat (w :: ws) p
      = after (trace (flush w p)) (heartbeat ws (peer_after (flush w p)))).
Proof.
  intros Hfire Ho. split.
  - intros g. destruct s.
    + destruct (Z.gtb_spec (prevLogIndex (peer_after (flush w p)))
                           (commitIndex (server w))) as [Hc | Hc].
      * rewrite (heartbeat_notifies w [] p Hfire t e Ho) by lia.
        cbn zeta. destruct (responseReceived w);
          cbn [after loop_trace heartbeat]; rewrite ?app_nil_r, in_app_iff;
          (split; [intros [Hin | [Hin | []]] | intros (-> & _ & _)]);
          try (now apply flush_trace_no_response in Hin);
          try (injection Hin as <-; repeat split; lia);
          right; left; reflexivity.
      * rewrite (heartbeat_quiet w [] p Hfire t e Ho Hc).
        cbn [after loop_trace heartbeat]. rewrite app_nil_r.
        split; [intros Hin; now apply flush_trace_no_response in Hin |].
        intros (_ & _ & Hgt). lia.
    + assert (loop_trace (heartbeat [w] p) = trace (flush w p)
              \/ exists b, loop_trace (heartbeat [w] p)
                           = trace (flush w p) ++ [EvStepDown t b]) as Htr.
      { destruct (Z.gtb_spec t (currentTerm (server w))) as [Ht | Ht].
        - right. exists (stepDownReady w).
          rewrite (heartbeat_step_down w [] p Hfire t e Ho) by lia.
          reflexivity.
        - left. rewrite (heartbeat_absorbs w [] p Hfire t e Ho Ht).
          cbn [after loop_trace heartbeat]. apply app_nil_r. }
      split; [| intros (_ & Hs & _); discriminate].
      intros Hin. exfalso.
      destruct Htr as [Htr | [b Htr]]; rewrite Htr in Hin.
      * now apply flush_trace_no_response in Hin.
      * apply in_app_iff in Hin. destruct Hin as [Hin | [Hin | []]];
          [now apply flush_trace_no_response in Hin | discriminate].
  - intros -> Hc. exact (heartbeat_quiet w ws p Hfire t e Ho Hc).
Qed.

Lemma commit_notification_witness :
  In (EvResponse (mkFlushResponse 2 true None "n2"))
     (loop_trace (heartbeat [advanceWorld] (peerAt 5))).
Proof.
  destruct (commit_notification advanceWorld [] (peerAt 5) 2 true None)
    as [Hiff _].
  - reflexivity.
  - reflexivity.
  - apply Hiff. split; [reflexivity | split; [reflexivity | cbn; lia]].
Defined.

(** ** The two paths of a flush *)

(** C7: a flush runs one send path and not the other.  When the node hands
    out an AppendEntries request, that request goes through
    sendFlushRequest and the transport sees no snapshot; when it hands out
    none, the node's snapshot request goes through sendSnapshotRequest and
    the transport sees no AppendEntries.  A successful snapshot response
    sets prevLogIndex to the request's LastIndex. *)
Theorem flush_takes_one_path (w : World) (p : Peer) :
  (forall req,
      createAppendEntriesRequest (server w) (prevLogIndex p) = Some req ->
      flush w p
      = before [EvCreateAppendEntriesRequest (prevLogIndex p)]
               (sendFlushRequest w p (Some req))
      /\ trace (flush w p)
         = [EvCreateAppendEntriesRequest (prevLogIndex p);
            EvSendAppendEntriesRequest req]
      /\ (forall r, ~ In (EvSendSnapshotRequest r) (trace (flush w p))))
  /\ (createAppendEntriesRequest (server w) (prevLogIndex p) = None ->
      flush w p
      = before [EvCreateAppendEntriesRequest (prevLogIndex p);
                EvCreateSnapshotRequest]
               (sendSnapshotRequest w p (createSnapshotRequest (server w)))
      /\ (forall r,
             ~ In (EvSendAppendEntriesRequest r) (trace (flush w p))))
  /\ (forall r rs e,
         createAppendEntriesRequest (server w) (prevLogIndex p) = None ->
         createSnapshotRequest (server w) = Some r ->
         SendSnapshotRequest (transporter w) (server w) p r = (Some rs, e) ->
         SnapshotResponse.Success rs = true ->
         flush w p
         = mkRun (set_prevLogIndex p (LastIndex r))
                 [EvCreateAppendEntriesRequest (prevLogIndex p);
                  EvCreateSnapshotRequest;
                  EvSendSnapshotRequest r]
                 (Returned (SnapshotResponse.Term rs, true, e))
         /\ prevLogIndex (peer_after (flush w p)) = LastIndex r).
Proof.
  split; [| split].
  - intros req Hreq. split; [exact (flush_append w p req Hreq) |].
    assert (trace (flush w p)
            = [EvCreateAppendEntriesRequest (prevLogIndex p);
               EvSendAppendEntriesRequest req]) as Htr.
    { rewrite flush_trace, Hreq. reflexivity. }
    split; [exact Htr |].
    intros r Hin. rewrite Htr in Hin.
    destruct Hin as [Hin | [Hin | []]]; discriminate.
  - intros Hnone. split; [exact (flush_snapshot w p Hnone) |].
    intros r Hin. rewrite flush_trace, Hnone in Hin.
    destruct (createSnapshotRequest (server w)); cbn in Hin;
      repeat destruct Hin as [Hin | Hin]; try discriminate; exact Hin.
  - intros r rs e Hnone Hsnap Hsend Hok.
    assert (flush w p
            = mkRun (set_prevLogIndex p (LastIndex r))
                    [EvCreateAppendEntriesRequest (prevLogIndex p);
                     EvCreateSnapshotRequest;
                     EvSendSnapshotRequest r]
                    (Returned (SnapshotResponse.Term rs, true, e))) as Hf.
    { rewrite (flush_snapshot w p Hnone), Hsnap.
      unfold sendSnapshotRequest. rewrite Hsend, Hok. reflexivity. }
    split; [exact Hf | rewrite Hf; reflexivity].
Qed.

Lemma flush_takes_one_path_witness :
  prevLogIndex (peer_after (flush installedWorld (peerAt 4))) = 9.
Proof.
  destruct (flush_takes_one_path installedWorld (peerAt 4))
    as (_ & _ & Hsnap).
  destruct (Hsnap (mkSnapshotRequest 9) (SnapshotResponse.mk 2 true) None)
    as [_ Hidx].
  - reflexivity.
  - reflexivity.
  - reflexivity.
  - reflexivity.
  - exact Hidx.
Defined.

(** ** Unsuccessful snapshot responses *)

(** C1: where the claim has the call fall through and return
    (term, false, err), the code does not: a non-nil SnapshotResponse with
    Success=false makes sendSnapshotRequest panic with that response, after
    the transport call; no triple is returned and the peer is left as it
    was. *)
Theorem failed_snapshot_panics (w : World) (p : Peer) (r : SnapshotRequest)
    (rs : SnapshotResponse.t) (e : error) :
  SendSnapshotRequest (transporter w) (server w) p r = (Some rs, e) ->
  SnapshotResponse.Success rs = false ->
  sendSnapshotRequest w p (Some r)
  = mkRun p [EvSendSnapshotRequest r] (Panicked (PanicSnapshotResponse rs)).
Proof.
  intros Hsend Hs. unfold sendSnapshotRequest. rewrite Hsend, Hs. reflexivity.
Qed.

Lemma failed_snapshot_panics_witness :
  sendSnapshotRequest refusedWorld (peerAt 4) (Some (mkSnapshotRequest 9))
  = mkRun (peerAt 4) [EvSendSnapshotRequest (mkSnapshotRequest 9)]
          (Panicked (PanicSnapshotResponse (SnapshotResponse.mk 2 false))).
Proof.
  apply (failed_snapshot_panics refusedWorld (peerAt 4) (mkSnapshotRequest 9)
           (SnapshotResponse.mk 2 false) None); reflexivity.
Defined.

(** The same at one input: the peer's snapshot is refused in term 2, and
    the call ends in a panic instead of returning (2, false, nil). *)
Lemma failed_snapshot_not_returned :
  SendSnapshotRequest (transporter refusedWorld) (server refusedWorld)
                      (peerAt 4) (mkSnapshotRequest 9)
  = (Some (SnapshotResponse.mk 2 false), None)
  /\ outcome (sendSnapshotRequest refusedWorld (peerAt 4)
                                  (Some (mkSnapshotRequest 9)))
     = Panicked (PanicSnapshotResponse (SnapshotResponse.mk 2 false))
  /\ outcome (sendSnapshotRequest refusedWorld (peerAt 4)
                                  (Some (mkSnapshotRequest 9)))
     <> Returned (2, false, None).
Proof. repeat split. discriminate. Qed.

(** ** Successful AppendEntries responses *)

Lemma buildAppendEntriesRequest_after (l : Log) (prev : Z)
    (req : AppendEntriesRequest) (e : LogEntry) :
  buildAppendEntriesRequest l prev = Some req ->
  In e (Entries req) ->
  prev < Index e.
Proof.
  unfold buildAppendEntriesRequest.
  destruct (prev <? startIndex l); [discriminate |].
  intros Hreq Hin. injection Hreq as <-. cbn [Entries] in Hin.
  apply filter_In in Hin. destruct Hin as [_ Hlt].
  apply Z.ltb_lt. exact Hlt.
Qed.

Lemma appended_le (w : World) (p : Peer) :
  buildsFromLog w ->
  appended w p = true ->
  prevLogIndex p <= prevLogIndex (peer_after (flush w p)).
Proof.
  intros [l Hbuild]. unfold appended, succeeds.
  destruct (createAppendEntriesRequest (server w) (prevLogIndex p))
    as [req |] eqn:Hreq; [| discriminate].
  destruct (raceResponse w p req) as [resp |] eqn:Hr; [| discriminate].
  intros Hs. rewrite (flush_append w p req Hreq).
  cbn [before peer_after].
  rewrite (sendFlushRequest_success w p req resp Hr Hs). cbn [peer_after].
  destruct (lastEntry req) as [e |] eqn:Hlast; [| lia].
  cbn [set_prevLogIndex prevLogIndex].
  rewrite Hbuild in Hreq.
  pose proof (buildAppendEntriesRequest_after l (prevLogIndex p) req e Hreq
                (lastEntry_In req e Hlast)).
  lia.
Qed.

Lemma cursorHistory_sorted (ws : list World) :
  forall p,
    Forall buildsFromLog ws ->
    allAppended ws p = true ->
    Sorted Z.le (prevLogIndex p :: cursorHistory ws p).
Proof.
  induction ws as [| w rest IH]; intros p Hlog Hs.
  - repeat constructor.
  - cbn [allAppended cursorHistory] in *.
    inversion Hlog as [| w' rest' Hw Hrest]; subst.
    apply andb_true_iff in Hs. destruct Hs as [Hs1 Hs2].
    constructor.
    + exact (IH (peer_after (flush w p)) Hrest Hs2).
    + constructor. exact (appended_le w p Hw Hs1).
Qed.

(** C2: a successful AppendEntries flush with entries leaves prevLogIndex
    at the index of the request's last entry, and one without entries
    leaves the peer as it was; over any sequence of successful AppendEntries
    flushes, the node building each request for the prevLogIndex of the
    moment, prevLogIndex does not decrease. *)
Theorem success_advances_cursor :
  (forall w p req resp,
      raceResponse w p req = Some resp ->
      AppendEntriesResponse.Success resp = true ->
      (forall d,
          Entries req <> [] ->
          prevLogIndex (peer_after (sendFlushRequest w p (Some req)))
          = Index (last (Entries req) d))
      /\ (Entries req = [] ->
          peer_after (sendFlushRequest w p (Some req)) = p))
  /\ (forall ws p,
         Forall buildsFromLog ws ->
         allAppended ws p = true ->
         Sorted Z.le (prevLogIndex p :: cursorHistory ws p)).
Proof.
  split.
  - intros w p req resp Hr Hs.
    rewrite (sendFlushRequest_success w p req resp Hr Hs). cbn [peer_after].
    split.
    + intros d Hne. rewrite (lastEntry_last req d Hne). reflexivity.
    + intros Hnil. rewrite (lastEntry_nil req Hnil). reflexivity.
  - intros ws p. apply cursorHistory_sorted.
Qed.

Lemma success_advances_cursor_witness :
  Sorted Z.le
    (prevLogIndex (peerAt 5)
     :: cursorHistory [replicatingWorld 7; replicatingWorld 8;
                       replicatingWorld 8] (peerAt 5)).
Proof.
  destruct success_advances_cursor as [_ Hseq].
  apply (Hseq [replicatingWorld 7; replicatingWorld 8; replicatingWorld 8]
              (peerAt 5)).
  - repeat (apply Forall_cons;
            [eexists; intros prev; reflexivity |]).
    apply Forall_nil.
  - reflexivity.
Defined.

(** ** Where the cursor moves forward *)

(** C8, as the code has it: prevLogIndex moves forward in three places, the
    successful AppendEntries branch (to the last entry sent), the
    commit-index correction of a refused AppendEntries (to the peer's
    CommitIndex) and the successful Snapshot branch (to LastIndex); on every
    other path of the two sends it does not increase, and clone copies it. *)
Theorem cursor_moves_forward_in_three_places (w : World) (p : Peer) :
  (forall req,
      prevLogIndex p < prevLogIndex (peer_after (sendFlushRequest w p req)) ->
      exists r resp,
        req = Some r /\ raceResponse w p r = Some resp
        /\ ((AppendEntriesResponse.Success resp = true
             /\ exists e,
                 lastEntry r = Some e
                 /\ prevLogIndex (peer_after (sendFlushRequest w p req))
                    = Index e)
            \/ (AppendEntriesResponse.Success resp = false
                /\ AppendEntriesResponse.Term resp <= currentTerm (server w)
                /\ AppendEntriesResponse.CommitIndex resp > prevLogIndex p
                /\ prevLogIndex (peer_after (sendFlushRequest w p req))
                   = AppendEntriesResponse.CommitIndex resp)))
  /\ (forall req,
         prevLogIndex p
         < prevLogIndex (peer_after (sendSnapshotRequest w p req)) ->
         exists r rs e,
           req = Some r
           /\ SendSnapshotRequest (transporter w) (server w) p r
              = (Some rs, e)
           /\ SnapshotResponse.Success rs = true
           /\ prevLogIndex (peer_after (sendSnapshotRequest w p req))
              = LastIndex r)
  /\ prevLogIndex (clone p) = prevLogIndex p.
Proof.
  split; [| split; [| reflexivity]].
  - intros [r |] Hlt; [| cbn in Hlt; lia].
    destruct (raceResponse w p r) as [resp |] eqn:Hr.
    2:{ unfold sendFlushRequest in Hlt. rewrite Hr in Hlt. cbn in Hlt. lia. }
    exists r, resp. split; [reflexivity |]. split; [exact Hr |].
    destruct (AppendEntriesResponse.Success resp) eqn:Hs.
    + left. split; [reflexivity |].
      rewrite (sendFlushRequest_success w p r resp Hr Hs) in *.
      cbn [peer_after] in *.
      destruct (lastEntry r) as [e |]; [| lia].
      exists e. split; reflexivity.
    + right. split; [reflexivity |].
      destruct (Z.gtb_spec (AppendEntriesResponse.Term resp)
                           (currentTerm (server w))) as [Ht | Ht].
      * rewrite (sendFlushRequest_step_down w p r resp Hr Hs) in Hlt by lia.
        cbn in Hlt. lia.
      * rewrite (sendFlushRequest_mismatch w p r resp Hr Hs Ht) in *.
        cbn [peer_after] in *.
        destruct (Z.gtb_spec (AppendEntriesResponse.CommitIndex resp)
                             (prevLogIndex p)) as [Hc | Hc].
        -- repeat split; [exact Ht | lia].
        -- exfalso.
           destruct (Z.gtb_spec (prevLogIndex p) 0) as [Hp | Hp];
             [| lia].
           cbn [set_prevLogIndex prevLogIndex] in Hlt.
           pose proof (wrap64_pred_le (prevLogIndex p)). lia.
  - intros [r |] Hlt; [| cbn in Hlt; lia].
    unfold sendSnapshotRequest in *.
    destruct (SendSnapshotRequest (transporter w) (server w) p r)
      as [[rs |] e] eqn:Hsend; [| cbn in Hlt; lia].
    destruct (SnapshotResponse.Success rs) eqn:Hs; [| cbn in Hlt; lia].
    exists r, rs, e. split; [reflexivity |]. split; [exact Hsend |].
    split; [exact Hs | reflexivity].
Qed.

Lemma cursor_moves_forward_in_three_places_witness :
  exists r resp,
    Some (entriesAt []) = Some r
    /\ raceResponse correctionWorld (peerAt 5) r = Some resp
    /\ ((AppendEntriesResponse.Success resp = true
         /\ exists e,
             lastEntry r = Some e
             /\ prevLogIndex
                  (peer_after (sendFlushRequest correctionWorld (peerAt 5)
                                                (Some (entriesAt []))))
                = Index e)
        \/ (AppendEntriesResponse.Success resp = false
            /\ AppendEntriesResponse.Term resp
               <= currentTerm (server correctionWorld)
            /\ AppendEntriesResponse.CommitIndex resp
               > prevLogIndex (peerAt 5)
            /\ prevLogIndex
                 (peer_after (sendFlushRequest correctionWorld (peerAt 5)
                                               (Some (entriesAt []))))
               = AppendEntriesResponse.CommitIndex resp)).
Proof.
  destruct (cursor_moves_forward_in_three_places correctionWorld (peerAt 5))
    as [Hflush _].
  apply (Hflush (Some (entriesAt []))). cbn. lia.
Defined.

(** C8, as it was stated, fails: a refusal in the current term that reports
    CommitIndex 10 takes prevLogIndex from 5 to 10, and an installed snapshot
    takes it from 4 to 9; neither is the successful AppendEntries branch. *)
Lemma cursor_moves_forward_elsewhere :
  (raceResponse correctionWorld (peerAt 5) (entriesAt []) = failedAppend 2 10
   /\ prevLogIndex (peerAt 5)
      < prevLogIndex (peer_after (sendFlushRequest correctionWorld (peerAt 5)
                                                   (Some (entriesAt []))))
   /\ prevLogIndex (peer_after (sendFlushRequest correctionWorld (peerAt 5)
                                                 (Some (entriesAt []))))
      = 10)
  /\ (prevLogIndex (peerAt 4)
      < prevLogIndex (peer_after
                        (sendSnapshotRequest installedWorld (peerAt 4)
                                             (Some (mkSnapshotRequest 9))))
      /\ prevLogIndex (peer_after
                         (sendSnapshotRequest installedWorld (peerAt 4)
                                              (Some (mkSnapshotRequest 9))))
         = 9).
Proof. cbn. repeat split. Qed.

(** ** The loop, turn by turn *)

Lemma turn_shape (w : World) (p : Peer) : TurnShape w p (heartbeat [w] p).
Proof.
  cbn [heartbeat]. destruct (timerStart w) eqn:Hfire;
    [| now constructor].
  destruct (outcome (flush w p)) as [[[t s] e] | v] eqn:Ho;
    [| now constructor].
  destruct s.
  - destruct (Z.gtb_spec (prevLogIndex (peer_after (flush w p)))
                         (commitIndex (server w))) as [Hc | Hc].
    + destruct (responseReceived w) eqn:Hrecv; unfold after;
        cbn [loop_peer loop_trace loop_status]; rewrite ?app_nil_r.
      * pose proof (TurnNotified w p t e Hfire Ho ltac:(lia)) as H.
        rewrite Hrecv in H. exact H.
      * pose proof (TurnNotified w p t e Hfire Ho ltac:(lia)) as H.
        rewrite Hrecv in H. exact H.
    + unfold after. cbn [loop_peer loop_trace loop_status]. rewrite app_nil_r.
      apply (TurnQuiet w p t true e Hfire Ho); [intros _; exact Hc |].
      discriminate.
  - destruct (Z.gtb_spec t (currentTerm (server w))) as [Ht | Ht].
    + apply (TurnSteppedDown w p t e Hfire Ho). lia.
    + unfold after. cbn [loop_peer loop_trace loop_status]. rewrite app_nil_r.
      apply (TurnQuiet w p t false e Hfire Ho); [discriminate |].
      intros _. exact Ht.
Qed.

Lemma heartbeat_cons (w : World) (ws : list World) (p : Peer) :
  heartbeat (w :: ws) p
  = match loop_status (heartbeat [w] p) with
    | Waiting =>
        after (loop_trace (heartbeat [w] p))
              (heartbeat ws (loop_peer (heartbeat [w] p)))
    | _ => heartbeat [w] p
    end.
Proof.
  cbn [heartbeat]. destruct (timerStart w); [| reflexivity].
  destruct (outcome (flush w p)) as [[[t s] e] | v]; [| reflexivity].
  destruct s.
  - destruct (prevLogIndex (peer_after (flush w p))
              >? commitIndex (server w)).
    + destruct (responseReceived w); [| reflexivity].
      unfold after. cbn [loop_peer loop_trace loop_status]. rewrite app_nil_r.
      reflexivity.
    + unfold after. cbn [loop_peer loop_trace loop_status]. rewrite app_nil_r.
      reflexivity.
  - destruct (t >? currentTerm (server w)); [reflexivity |].
    unfold after. cbn [loop_peer loop_trace loop_status]. rewrite app_nil_r.
    reflexivity.
Qed.

(** ** Every way a flush can end *)

Lemma sendFlushRequest_cases (w : World) (p : Peer)
    (r : AppendEntriesRequest) :
  (raceResponse w p r = None
   /\ sendFlushRequest w p (Some r)
      = mkRun p [EvSendAppendEntriesRequest r]
              (Returned (0, false, errors_New "Network problem")))
  \/ exists resp,
      raceResponse w p r = Some resp
      /\ ((AppendEntriesResponse.Success resp = true
           /\ sendFlushRequest w p (Some r)
              = mkRun (match lastEntry r with
                       | Some e => set_prevLogIndex p (Index e)
                       | None => p
                       end)
                      [EvSendAppendEntriesRequest r]
                      (Returned (AppendEntriesResponse.Term resp, true, None)))
          \/ (AppendEntriesResponse.Success resp = false
              /\ AppendEntriesResponse.Term resp > currentTerm (server w)
              /\ sendFlushRequest w p (Some r)
                 = mkRun p [EvSendAppendEntriesRequest r]
                         (Returned (AppendEntriesResponse.Term resp, false,
                                    errors_New "Step down")))
          \/ (AppendEntriesResponse.Success resp = false
              /\ AppendEntriesResponse.Term resp <= currentTerm (server w)
              /\ sendFlushRequest w p (Some r)
                 = mkRun (if AppendEntriesResponse.CommitIndex resp
                             >? prevLogIndex p
                          then set_prevLogIndex p
                                 (AppendEntriesResponse.CommitIndex resp)
                          else if prevLogIndex p >? 0
                               then set_prevLogIndex p
                                      (wrap64 (prevLogIndex p - 1))
                               else p)
                         [EvSendAppendEntriesRequest r]
                         (Returned (AppendEntriesResponse.Term resp, false,
                                    None)))).
Proof.
  destruct (raceResponse w p r) as [resp |] eqn:Hr.
  - right. exists resp. split; [reflexivity |].
    destruct (AppendEntriesResponse.Success resp) eqn:Hs.
    + left. split; [reflexivity |].
      exact (sendFlushRequest_success w p r resp Hr Hs).
    + right.
      destruct (Z.gtb_spec (AppendEntriesResponse.Term resp)
                           (currentTerm (server w))) as [Ht | Ht].
      * left. split; [reflexivity |]. split; [lia |].
        apply (sendFlushRequest_step_down w p r resp Hr Hs). lia.
      * right. split; [reflexivity |]. split; [exact Ht |].
        exact (sendFlushRequest_mismatch w p r resp Hr Hs Ht).
  - left. split; [reflexivity |].
    unfold sendFlushRequest. rewrite Hr. reflexivity.
Qed.

Lemma sendFlushRequest_name (w : World) (p : Peer)
    (req : option AppendEntriesRequest) :
  name (peer_after (sendFlushRequest w p req)) = name p.
Proof.
  destruct req as [r |]; [| reflexivity].
  destruct (sendFlushRequest_cases w p r)
    as [[_ ->] | (resp & _ & [[_ ->] | [(_ & _ & ->) | (_ & _ & ->)]])];
    cbn [peer_after]; try reflexivity.
  - destruct (lastEntry r); reflexivity.
  - destruct (_ >? _); [reflexivity |]. destruct (_ >? _); reflexivity.
Qed.

Lemma sendSnapshotRequest_name (w : World) (p : Peer)
    (req : option SnapshotRequest) :
  name (peer_after (sendSnapshotRequest w p req)) = name p.
Proof.
  unfold sendSnapshotRequest. destruct req as [r |]; [| reflexivity].
  destruct (SendSnapshotRequest (transporter w) (server w) p r) as [[rs |] e];
    [destruct (SnapshotResponse.Success rs) |]; reflexivity.
Qed.

Lemma flush_name (w : World) (p : Peer) :
  name (peer_after (flush w p)) = name p.
Proof.
  unfold flush.
  destruct (createAppendEntriesRequest (server w) (prevLogIndex p));
    cbn [before peer_after].
  - apply sendFlushRequest_name.
  - apply sendSnapshotRequest_name.
Qed.

Lemma sendFlushRequest_returns (w : World) (p : Peer)
    (req : option AppendEntriesRequest) :
  exists t, outcome (sendFlushRequest w p req) = Returned t.
Proof.
  destruct req as [r |]; [| eexists; reflexivity].
  destruct (sendFlushRequest_cases w p r)
    as [[_ ->] | (resp & _ & [[_ ->] | [(_ & _ & ->) | (_ & _ & ->)]])];
    eexists; reflexivity.
Qed.

Lemma flush_panic (w : World) (p : Peer) (v : PanicValue) :
  outcome (flush w p) = Panicked v ->
  createAppendEntriesRequest (server w) (prevLogIndex p) = None
  /\ exists r rs e,
      createSnapshotRequest (server w) = Some r
      /\ SendSnapshotRequest (transporter w) (server w) p r = (Some rs, e)
      /\ SnapshotResponse.Success rs = false
      /\ v = PanicSnapshotResponse rs.
Proof.
  unfold flush.
  destruct (createAppendEntriesRequest (server w) (prevLogIndex p)) as [req |];
    cbn [before outcome]; intros Ho.
  - destruct (sendFlushRequest_returns w p (Some req)) as [t Ht].
    rewrite Ht in Ho. discriminate.
  - split; [reflexivity |].
    unfold sendSnapshotRequest in Ho.
    destruct (createSnapshotRequest (server w)) as [r |]; [| discriminate].
    destruct (SendSnapshotRequest (transporter w) (server w) p r)
      as [[rs |] e] eqn:Hsend; [| discriminate].
    destruct (SnapshotResponse.Success rs) eqn:Hs; [discriminate |].
    exists r, rs, e. injection Ho as <-.
    split; [reflexivity |]. split; [exact Hsend |].
    split; [exact Hs | reflexivity].
Qed.

Lemma flush_trace_no_step_down (w : World) (p : Peer) (t : Z) (b : bool) :
  ~ In (EvStepDown t b) (trace (flush w p)).
Proof.
  rewrite flush_trace.
  destruct (createAppendEntriesRequest (server w) (prevLogIndex p));
    [| destruct (createSnapshotRequest (server w))];
    cbn; intros H; repeat destruct H as [H | H]; try discriminate; exact H.
Qed.

Lemma flush_transportCalls (w : World) (p : Peer) :
  (transportCalls (trace (flush w p)) <= 1)%nat.
Proof.
  rewrite flush_trace. unfold transportCalls.
  destruct (createAppendEntriesRequest (server w) (prevLogIndex p));
    [| destruct (createSnapshotRequest (server w))]; cbn; lia.
Qed.

Lemma turn_peer (w : World) (p : Peer) :
  loop_peer (heartbeat [w] p) = p
  \/ loop_peer (heartbeat [w] p) = peer_after (flush w p).
Proof.
  destruct (turn_shape w p); cbn [loop_peer]; auto.
Qed.

Lemma raceResponse_some (w : World) (p : Peer) (r : AppendEntriesRequest)
    (resp : AppendEntriesResponse.t) :
  raceResponse w p r = Some resp ->
  timeoutFirst w = false
  /\ fst (SendAppendEntriesRequest (transporter w) (server w) p r) = Some resp.
Proof.
  unfold raceResponse. destruct (timeoutFirst w); [discriminate |].
  intros H. split; [reflexivity | exact H].
Qed.

Lemma flush_bound (B : Z) (w : World) (p : Peer) :
  B < 2 ^ 64 ->
  boundedWorld B w ->
  0 <= prevLogIndex p <= B ->
  0 <= prevLogIndex (peer_after (flush w p)) <= B.
Proof.
  intros HB (Hent & Hcommit & Hsnap) Hp. unfold flush.
  destruct (createAppendEntriesRequest (server w) (prevLogIndex p))
    as [r |] eqn:Hreq; cbn [before peer_after].
  - destruct (sendFlushRequest_cases w p r)
      as [[_ ->] | (resp & Hr & [[_ ->] | [(_ & _ & ->) | (_ & _ & ->)]])];
      cbn [peer_after]; try exact Hp.
    + destruct (lastEntry r) as [e |] eqn:Hl; [| exact Hp].
      cbn [set_prevLogIndex prevLogIndex].
      exact (Hent _ r e Hreq (lastEntry_In r e Hl)).
    + destruct (Z.gtb_spec (AppendEntriesResponse.CommitIndex resp)
                           (prevLogIndex p)) as [Hc | Hc].
      * cbn [set_prevLogIndex prevLogIndex].
        apply raceResponse_some in Hr. destruct Hr as [_ Hr].
        exact (Hcommit p r resp Hr).
      * destruct (Z.gtb_spec (prevLogIndex p) 0) as [Hpos | Hpos];
          [| exact Hp].
        cbn [set_prevLogIndex prevLogIndex].
        rewrite (wrap64_pred (prevLogIndex p)) by (unfold u64; lia). lia.
  - unfold sendSnapshotRequest.
    destruct (createSnapshotRequest (server w)) as [r |] eqn:Hr;
      [| exact Hp].
    destruct (SendSnapshotRequest (transporter w) (server w) p r)
      as [[rs |] e]; [| exact Hp].
    destruct (SnapshotResponse.Success rs); [| exact Hp].
    cbn [peer_after set_prevLogIndex prevLogIndex]. exact (Hsnap r eq_refl).
Qed.

(** ** Panics *)

(** X2: the heartbeat loop ends in a panic only through the snapshot path:
    the panic value is a snapshot response with Success=false, and the last
    thing the loop did was to send a snapshot request. *)
Theorem loop_crash_is_refused_snapshot (ws : list World) :
  forall (p : Peer) (v : PanicValue),
    loop_status (heartbeat ws p) = Crashed v ->
    exists pre r rs,
      loop_trace (heartbeat ws p) = pre ++ [EvSendSnapshotRequest r]
      /\ v = PanicSnapshotResponse rs
      /\ SnapshotResponse.Success rs = false.
Proof.
  induction ws as [| w ws IH]; intros p v Hst; [discriminate |].
  rewrite heartbeat_cons in *.
  pose proof (turn_shape w p) as Hturn.
  remember (heartbeat [w] p) as l eqn:El.
  destruct Hturn as [Hf | v0 Hf Ho | t s e Hf Ho _ _ | t e Hf Ho _
                     | t e Hf Ho _];
    cbn [loop_status loop_trace loop_peer] in *.
  - discriminate.
  - injection Hst as ->.
    destruct (flush_panic w p v Ho) as (Hnone & r & rs & e & Hsnap & _ & Hs & ->).
    exists [EvCreateAppendEntriesRequest (prevLogIndex p);
            EvCreateSnapshotRequest], r, rs.
    rewrite flush_trace, Hnone, Hsnap. repeat split. exact Hs.
  - cbn [after loop_status loop_trace] in *.
    destruct (IH _ v Hst) as (pre & r & rs & Htr & Hv & Hs).
    exists (trace (flush w p) ++ pre), r, rs.
    rewrite Htr, app_assoc. repeat split; assumption.
  - destruct (responseReceived w); [| discriminate].
    cbn [after loop_status loop_trace] in *.
    destruct (IH _ v Hst) as (pre & r & rs & Htr & Hv & Hs).
    eexists (_ ++ pre), r, rs.
    rewrite Htr, app_assoc. repeat split; assumption.
  - discriminate.
Qed.

Lemma loop_crash_is_refused_snapshot_witness :
  exists pre r rs,
    loop_trace (heartbeat [timedOutWorld; refusedWorld; advanceWorld]
                          (peerAt 4))
    = pre ++ [EvSendSnapshotRequest r]
    /\ PanicSnapshotResponse (SnapshotResponse.mk 2 false)
       = PanicSnapshotResponse rs
    /\ SnapshotResponse.Success rs = false.
Proof.
  apply (loop_crash_is_refused_snapshot
           [timedOutWorld; refusedWorld; advanceWorld] (peerAt 4)).
  reflexivity.
Defined.

(** ** Invariants of the loop *)

(** X3: whatever the loop meets, the peer it leaves has the name it
    started with: no path of flush or heartbeat writes [name]. *)
Theorem heartbeat_keeps_name (ws : list World) :
  forall p : Peer, name (loop_peer (heartbeat ws p)) = name p.
Proof.
  induction ws as [| w ws IH]; intros p; [reflexivity |].
  rewrite heartbeat_cons.
  assert (name (loop_peer (heartbeat [w] p)) = name p) as Hturn.
  { destruct (turn_peer w p) as [-> | ->];
      [reflexivity | apply flush_name]. }
  destruct (loop_status (heartbeat [w] p)); try exact Hturn.
  cbn [after loop_peer]. rewrite IH. exact Hturn.
Qed.

(** X4: prevLogIndex never leaves the range of the indices the peer has
    been given: if the starting prevLogIndex and every entry index,
    CommitIndex and LastIndex handed over by the node and the transport lie
    between 0 and a bound B below 2^64, so does prevLogIndex after any
    number of turns.  In particular the decrement never takes 0 to
    2^64 - 1. *)
Theorem heartbeat_keeps_bound (B : Z) (ws : list World) :
  forall p : Peer,
    B < 2 ^ 64 ->
    0 <= prevLogIndex p <= B ->
    Forall (boundedWorld B) ws ->
    0 <= prevLogIndex (loop_peer (heartbeat ws p)) <= B.
Proof.
  induction ws as [| w ws IH]; intros p HB Hp Hws; [exact Hp |].
  inversion Hws as [| w' ws' Hw Hrest]; subst.
  rewrite heartbeat_cons.
  assert (0 <= prevLogIndex (loop_peer (heartbeat [w] p)) <= B) as Hturn.
  { destruct (turn_peer w p) as [-> | ->];
      [exact Hp | exact (flush_bound B w p HB Hw Hp)]. }
  destruct (loop_status (heartbeat [w] p)); try exact Hturn.
  cbn [after loop_peer]. exact (IH _ HB Hturn Hrest).
Qed.

Lemma heartbeat_keeps_bound_witness :
  0 <= prevLogIndex
         (loop_peer (heartbeat [mismatchWorld; advanceWorld; mismatchWorld]
                               (peerAt 0))) <= 7.
Proof.
  apply (heartbeat_keeps_bound 7 [mismatchWorld; advanceWorld; mismatchWorld]
           (peerAt 0)).
  - lia.
  - cbn. lia.
  - apply Forall_cons; [| apply Forall_cons; [| apply Forall_cons;
                                                  [| apply Forall_nil]]];
      (split; [| split]).
    + intros i r e Hreq Hin. injection Hreq as <-. destruct Hin.
    + intros q r resp Hresp. injection Hresp as <-. cbn. lia.
    + discriminate.
    + intros i r e Hreq Hin. injection Hreq as <-.
      destruct Hin as [<- | [<- | []]]; cbn; lia.
    + intros q r resp Hresp. injection Hresp as <-. cbn. lia.
    + discriminate.
    + intros i r e Hreq Hin. injection Hreq as <-. destruct Hin.
    + intros q r resp Hresp. injection Hresp as <-. cbn. lia.
    + discriminate.
Defined.

(** ** More on refused AppendEntries *)

(** X5: after a refusal in a term that is not newer, prevLogIndex is at
    least the reported CommitIndex minus one; it ends below the CommitIndex
    exactly when the CommitIndex equalled a positive prevLogIndex, since the
    correction is taken only for a strictly greater CommitIndex. *)
Theorem mismatch_stays_near_commit (w : World) (p : Peer)
    (req : AppendEntriesRequest) (resp : AppendEntriesResponse.t) :
  u64 (prevLogIndex p) ->
  raceResponse w p req = Some resp ->
  AppendEntriesResponse.Success resp = false ->
  AppendEntriesResponse.Term resp <= currentTerm (server w) ->
  AppendEntriesResponse.CommitIndex resp - 1
  <= prevLogIndex (peer_after (sendFlushRequest w p (Some req)))
  /\ (prevLogIndex (peer_after (sendFlushRequest w p (Some req)))
      < AppendEntriesResponse.CommitIndex resp
      <-> AppendEntriesResponse.CommitIndex resp = prevLogIndex p
          /\ prevLogIndex p > 0).
Proof.
  intros Hu Hr Hs Ht.
  rewrite (sendFlushRequest_mismatch w p req resp Hr Hs Ht).
  cbn [peer_after].
  destruct (Z.gtb_spec (AppendEntriesResponse.CommitIndex resp)
                       (prevLogIndex p)) as [Hc | Hc];
    [| destruct (Z.gtb_spec (prevLogIndex p) 0) as [Hp | Hp]];
    cbn [set_prevLogIndex prevLogIndex];
    try rewrite (wrap64_pred _ Hu) by lia;
    unfold u64 in Hu; lia.
Qed.

Lemma mismatch_stays_near_commit_witness :
  prevLogIndex
    (peer_after (sendFlushRequest sameCommitWorld (peerAt 7)
                                  (Some (entriesAt []))))
  < 7.
Proof.
  destruct (mismatch_stays_near_commit sameCommitWorld (peerAt 7)
              (entriesAt []) (AppendEntriesResponse.mk 2 false 7))
    as [_ Hiff].
  - unfold u64. cbn. lia.
  - reflexivity.
  - reflexivity.
  - cbn. lia.
  - apply Hiff. cbn. lia.
Defined.

(** ** What the loop writes to the node's channels *)

Lemma flush_trace_quiet (w : World) (p : Peer) (e : Event) :
  In e (trace (flush w p)) -> isNotification e = false.
Proof.
  rewrite flush_trace.
  destruct (createAppendEntriesRequest (server w) (prevLogIndex p));
    [| destruct (createSnapshotRequest (server w))];
    cbn; intros H; repeat destruct H as [<- | H]; try reflexivity;
    destruct H.
Qed.

Lemma heartbeat_trace_cons (w : World) (ws : list World) (p : Peer) :
  loop_trace (heartbeat (w :: ws) p)
  = loop_trace (heartbeat [w] p)
    ++ match loop_status (heartbeat [w] p) with
       | Waiting => loop_trace (heartbeat ws (loop_peer (heartbeat [w] p)))
       | _ => []
       end.
Proof.
  rewrite heartbeat_cons.
  destruct (loop_status (heartbeat [w] p)); cbn [after loop_trace];
    rewrite ?app_nil_r; reflexivity.
Qed.

Lemma heartbeat_status_cons (w : World) (ws : list World) (p : Peer) :
  loop_status (heartbeat (w :: ws) p)
  = match loop_status (heartbeat [w] p) with
    | Waiting => loop_status (heartbeat ws (loop_peer (heartbeat [w] p)))
    | s => s
    end.
Proof.
  rewrite heartbeat_cons.
  destruct (loop_status (heartbeat [w] p)) eqn:Hs; cbn [after loop_status];
    try reflexivity; exact Hs.
Qed.

Lemma turn_name (w : World) (p : Peer) :
  name (loop_peer (heartbeat [w] p)) = name p.
Proof.
  destruct (turn_peer w p) as [-> | ->]; [reflexivity | apply flush_name].
Qed.

Lemma turn_response (w : World) (p : Peer) (f : FlushResponse) :
  In (EvResponse f) (loop_trace (heartbeat [w] p)) ->
  success f = true /\ peer f = name p.
Proof.
  destruct (turn_shape w p) as [Hf | v Hf Ho | t s e Hf Ho _ _ | t e Hf Ho _
                                | t e Hf Ho _];
    cbn [loop_trace]; rewrite ?in_app_iff; intros Hin.
  - destruct Hin.
  - apply flush_trace_quiet in Hin. discriminate.
  - apply flush_trace_quiet in Hin. discriminate.
  - destruct Hin as [Hin | [Hin | []]].
    + apply flush_trace_quiet in Hin. discriminate.
    + injection Hin as <-. cbn [success peer].
      split; [reflexivity | apply flush_name].
  - destruct Hin as [Hin | [Hin | []]]; [| discriminate].
    apply flush_trace_quiet in Hin. discriminate.
Qed.

Lemma turn_step_down (w : World) (p : Peer) (t : Z) (b : bool) :
  In (EvStepDown t b) (loop_trace (heartbeat [w] p)) ->
  loop_status (heartbeat [w] p) = Stopped
  /\ loop_trace (heartbeat [w] p) = trace (flush w p) ++ [EvStepDown t b]
  /\ b = stepDownReady w
  /\ t > currentTerm (server w)
  /\ exists e, outcome (flush w p) = Returned (t, false, e).
Proof.
  destruct (turn_shape w p) as [Hf | v Hf Ho | t0 s e Hf Ho _ _
                                | t0 e Hf Ho _ | t0 e Hf Ho Ht];
    cbn [loop_trace loop_status]; rewrite ?in_app_iff; intros Hin.
  - destruct Hin.
  - apply flush_trace_quiet in Hin. discriminate.
  - apply flush_trace_quiet in Hin. discriminate.
  - destruct Hin as [Hin | [Hin | []]]; [| discriminate].
    apply flush_trace_quiet in Hin. discriminate.
  - destruct Hin as [Hin | [Hin | []]].
    + apply flush_trace_quiet in Hin. discriminate.
    + injection Hin as <- <-. repeat split; try assumption.
      exists e. exact Ho.
Qed.

(** X9: the loop writes to the step-down channel at most once, and only as
    its last act: a step-down attempt in the trace is the last event of the
    trace, nothing before it is a step-down attempt, and the loop has
    returned. *)
Theorem step_down_ends_loop (ws : list World) :
  forall (p : Peer) (t : Z) (b : bool),
    In (EvStepDown t b) (loop_trace (heartbeat ws p)) ->
    loop_status (heartbeat ws p) = Stopped
    /\ exists pre,
        loop_trace (heartbeat ws p) = pre ++ [EvStepDown t b]
        /\ forall t' b', ~ In (EvStepDown t' b') pre.
Proof.
  induction ws as [| w ws IH]; intros p t b Hin; [destruct Hin |].
  rewrite heartbeat_trace_cons in *. rewrite heartbeat_status_cons.
  apply in_app_iff in Hin. destruct Hin as [Hin | Hin].
  - destruct (turn_step_down w p t b Hin) as (Hst & Htr & _).
    rewrite Hst, Htr, app_nil_r. split; [reflexivity |].
    exists (trace (flush w p)). split; [reflexivity |].
    intros t' b'. apply flush_trace_no_step_down.
  - destruct (loop_status (heartbeat [w] p)) eqn:Hst; try destruct Hin.
    destruct (IH _ t b Hin) as (Hstop & pre & Htr & Hpre).
    split; [exact Hstop |].
    exists (loop_trace (heartbeat [w] p) ++ pre).
    rewrite Htr, app_assoc. split; [reflexivity |].
    intros t' b' Hin'. apply in_app_iff in Hin'.
    destruct Hin' as [Hin' | Hin']; [| exact (Hpre t' b' Hin')].
    destruct (turn_step_down w p t' b' Hin') as (Hst' & _).
    rewrite Hst in Hst'. discriminate.
Qed.

Lemma step_down_ends_loop_witness :
  loop_status (heartbeat [mismatchWorld; newerTermWorld; advanceWorld]
                         (peerAt 7)) = Stopped
  /\ exists pre,
      loop_trace (heartbeat [mismatchWorld; newerTermWorld; advanceWorld]
                            (peerAt 7))
      = pre ++ [EvStepDown 3 true]
      /\ forall t' b', ~ In (EvStepDown t' b') pre.
Proof.
  apply (step_down_ends_loop [mismatchWorld; newerTermWorld; advanceWorld]
           (peerAt 7) 3 true).
  cbn. do 4 right. left. reflexivity.
Defined.

(** X10: every FlushResponse the loop puts on the node's response channel
    reports success and carries the peer the loop was started for; a failed
    flush is never forwarded there. *)
Theorem responses_report_success (ws : list World) :
  forall (p : Peer) (f : FlushResponse),
    In (EvResponse f) (loop_trace (heartbeat ws p)) ->
    success f = true /\ peer f = name p.
Proof.
  induction ws as [| w ws IH]; intros p f Hin; [destruct Hin |].
  rewrite heartbeat_trace_cons in Hin.
  apply in_app_iff in Hin. destruct Hin as [Hin | Hin].
  - exact (turn_response w p f Hin).
  - destruct (loop_status (heartbeat [w] p)); try destruct Hin.
    destruct (IH _ f Hin) as [Hs Hp].
    split; [exact Hs |]. rewrite Hp. apply turn_name.
Qed.

Lemma responses_report_success_witness :
  success (mkFlushResponse 2 true None "n2") = true
  /\ peer (mkFlushResponse 2 true None "n2") = name (peerAt 7).
Proof.
  apply (responses_report_success [mismatchWorld; advanceWorld] (peerAt 7)).
  cbn. do 4 right. left. reflexivity.
Defined.

(** ** Step down, seen from the loop *)

Lemma flush_newer_term (w : World) (p : Peer) (t : Z) (e : error) :
  u64 (currentTerm (server w)) ->
  outcome (flush w p) = Returned (t, false, e) ->
  t > currentTerm (server w) ->
  exists req resp,
    createAppendEntriesRequest (server w) (prevLogIndex p) = Some req
    /\ raceResponse w p req = Some resp
    /\ AppendEntriesResponse.Success resp = false
    /\ AppendEntriesResponse.Term resp > currentTerm (server w)
    /\ t = AppendEntriesResponse.Term resp.
Proof.
  intros Hu Ho Ht. unfold u64 in Hu. unfold flush in Ho.
  destruct (createAppendEntriesRequest (server w) (prevLogIndex p))
    as [r |] eqn:Hreq; cbn [before outcome] in Ho.
  - exists r.
    destruct (sendFlushRequest_cases w p r)
      as [[_ Hrun] | (resp & Hr & [[_ Hrun] | [(Hs & Hgt & Hrun)
                                               | (_ & Hle & Hrun)]])];
      rewrite Hrun in Ho; cbn [outcome] in Ho; injection Ho as <- ?;
      try discriminate; try lia.
    exists resp. repeat split; assumption.
  - unfold sendSnapshotRequest in Ho.
    destruct (createSnapshotRequest (server w)) as [r |].
    + destruct (SendSnapshotRequest (transporter w) (server w) p r)
        as [[rs |] e0].
      * destruct (SnapshotResponse.Success rs) eqn:Hs; discriminate.
      * cbn [outcome] in Ho. injection Ho as <- _. lia.
    + cbn [outcome] in Ho. injection Ho as <- _. lia.
Qed.

(** X8: with the timer fired, a turn tries the step-down channel exactly
    when the AppendEntries path met a non-nil response with Success=false
    and a Term above currentTerm; the value offered is that Term.  A
    successful response, whatever its Term, and the snapshot path never
    lead to a step-down attempt. *)
Theorem step_down_iff_newer_term (w : World) (p : Peer) (t : Z) (b : bool) :
  timerStart w = true ->
  u64 (currentTerm (server w)) ->
  In (EvStepDown t b) (loop_trace (heartbeat [w] p)) <->
  exists req resp,
    createAppendEntriesRequest (server w) (prevLogIndex p) = Some req
    /\ raceResponse w p req = Some resp
    /\ AppendEntriesResponse.Success resp = false
    /\ AppendEntriesResponse.Term resp > currentTerm (server w)
    /\ t = AppendEntriesResponse.Term resp
    /\ b = stepDownReady w.
Proof.
  intros Hfire Hu. split.
  - intros Hin.
    destruct (turn_step_down w p t b Hin) as (_ & _ & Hb & Ht & e & Ho).
    destruct (flush_newer_term w p t e Hu Ho Ht)
      as (req & resp & Hreq & Hr & Hs & Hgt & Heq).
    exists req, resp. repeat split; assumption.
  - intros (req & resp & Hreq & Hr & Hs & Hgt & -> & ->).
    assert (outcome (flush w p)
            = Returned (AppendEntriesResponse.Term resp, false,
                        errors_New "Step down")) as Ho.
    { rewrite (flush_append w p req Hreq).
      cbn [before outcome].
      rewrite (sendFlushRequest_step_down w p req resp Hr Hs Hgt).
      reflexivity. }
    rewrite (heartbeat_step_down w [] p Hfire _ _ Ho Hgt).
    cbn [loop_trace]. apply in_app_iff. right. left. reflexivity.
Qed.

Lemma step_down_iff_newer_term_witness :
  In (EvStepDown 3 true) (loop_trace (heartbeat [newerTermWorld] (peerAt 6))).
Proof.
  apply (step_down_iff_newer_term newerTermWorld (peerAt 6) 3 true).
  - reflexivity.
  - unfold u64. cbn. lia.
  - exists (entriesAt []), (AppendEntriesResponse.mk 3 false 0).
    repeat split.
Defined.

(** ** Runs of turns *)

Lemma transportCalls_app (a b : list Event) :
  transportCalls (a ++ b) = (transportCalls a + transportCalls b)%nat.
Proof. unfold transportCalls. rewrite filter_app, length_app. reflexivity. Qed.

Lemma turn_transportCalls (w : World) (p : Peer) :
  (transportCalls (loop_trace (heartbeat [w] p)) <= 1)%nat.
Proof.
  pose proof (flush_transportCalls w p) as Hflush.
  destruct (turn_shape w p); cbn [loop_trace];
    rewrite ?transportCalls_app;
    try change (transportCalls []) with 0%nat;
    try change (transportCalls [EvResponse ?f]) with 0%nat;
    try change (transportCalls [EvStepDown ?t ?b]) with 0%nat;
    lia.
Qed.

(** X14: the loop calls the transport at most once per turn: over any run,
    the number of AppendEntries and Snapshot sends is at most the number of
    timer cycles. *)
Theorem one_send_per_turn (ws : list World) :
  forall p : Peer,
    (transportCalls (loop_trace (heartbeat ws p)) <= List.length ws)%nat.
Proof.
  induction ws as [| w ws IH]; intros p; [cbn; lia |].
  rewrite heartbeat_trace_cons, transportCalls_app. cbn [List.length].
  pose proof (turn_transportCalls w p) as Hturn.
  destruct (loop_status (heartbeat [w] p));
    [pose proof (IH (loop_peer (heartbeat [w] p))) | ..];
    try change (transportCalls []) with 0%nat; lia.
Qed.

(** ** Backing off, turn after turn *)

Lemma refusal_turn (w : World) (ws : list World) (p : Peer)
    (req : AppendEntriesRequest) (resp : AppendEntriesResponse.t) :
  u64 (prevLogIndex p) ->
  timerStart w = true ->
  createAppendEntriesRequest (server w) (prevLogIndex p) = Some req ->
  raceResponse w p req = Some resp ->
  AppendEntriesResponse.Success resp = false ->
  AppendEntriesResponse.Term resp <= currentTerm (server w) ->
  AppendEntriesResponse.CommitIndex resp = 0 ->
  heartbeat (w :: ws) p
  = after [EvCreateAppendEntriesRequest (prevLogIndex p);
           EvSendAppendEntriesRequest req]
          (heartbeat ws (set_prevLogIndex p (Z.max 0 (prevLogIndex p - 1)))).
Proof.
  intros Hu Hfire Hreq Hr Hs Ht Hc.
  assert (flush w p
          = mkRun (set_prevLogIndex p (Z.max 0 (prevLogIndex p - 1)))
                  [EvCreateAppendEntriesRequest (prevLogIndex p);
                   EvSendAppendEntriesRequest req]
                  (Returned (AppendEntriesResponse.Term resp, false, None)))
    as Hflush.
  { rewrite (flush_append w p req Hreq),
      (sendFlushRequest_mismatch w p req resp Hr Hs Ht), Hc.
    unfold before. cbn [peer_after trace outcome app]. f_equal.
    destruct p as [n i]. cbn [prevLogIndex] in *. unfold u64 in Hu.
    rewrite (gtb_false 0 i) by lia.
    destruct (Z.gtb_spec i 0) as [Hi | Hi];
      unfold set_prevLogIndex; cbn [name prevLogIndex]; f_equal.
    - rewrite (wrap64_pred i) by (unfold u64; lia). lia.
    - lia. }
  rewrite (heartbeat_absorbs w ws p Hfire
             (AppendEntriesResponse.Term resp) None);
    try rewrite Hflush; [reflexivity | reflexivity | exact Ht].
Qed.

(** X6: while the peer keeps refusing in a term that is not newer and
    reports CommitIndex 0, every turn takes prevLogIndex one step down until
    it reaches 0, where it stays; the loop keeps waiting for the next timer
    cycle and writes to neither channel of the node. *)
Theorem backoff_reaches_zero (ws : list World) :
  forall p : Peer,
    u64 (prevLogIndex p) ->
    Forall refusesAtZero ws ->
    loop_status (heartbeat ws p) = Waiting
    /\ prevLogIndex (loop_peer (heartbeat ws p))
       = Z.max 0 (prevLogIndex p - Z.of_nat (List.length ws))
    /\ forall e, In e (loop_trace (heartbeat ws p)) -> isNotification e = false.
Proof.
  induction ws as [| w ws IH]; intros p Hu Hall.
  - cbn. unfold u64 in Hu. repeat split; [lia | intros e []].
  - inversion Hall as [| w' ws' [Hfire Hex] Hrest]; subst.
    destruct (Hex p) as (req & resp & Hreq & Hr & Hs & Ht & Hc).
    rewrite (refusal_turn w ws p req resp Hu Hfire Hreq Hr Hs Ht Hc).
    assert (u64 (prevLogIndex
                   (set_prevLogIndex p (Z.max 0 (prevLogIndex p - 1)))))
      as Hu'.
    { unfold u64 in *. cbn [set_prevLogIndex prevLogIndex]. lia. }
    destruct (IH _ Hu' Hrest) as (Hst & Hidx & Hquiet).
    cbn [after loop_status loop_peer loop_trace].
    split; [exact Hst |]. split.
    + rewrite Hidx. cbn [set_prevLogIndex prevLogIndex List.length].
      unfold u64 in Hu. lia.
    + intros e Hin. apply in_app_iff in Hin.
      destruct Hin as [[<- | [<- | []]] | Hin]; try reflexivity.
      exact (Hquiet e Hin).
Qed.

Lemma backoff_reaches_zero_witness :
  loop_status (heartbeat [mismatchWorld; mismatchWorld; mismatchWorld]
                         (peerAt 2)) = Waiting
  /\ prevLogIndex
       (loop_peer (heartbeat [mismatchWorld; mismatchWorld; mismatchWorld]
                             (peerAt 2)))
     = Z.max 0 (prevLogIndex (peerAt 2) - Z.of_nat 3)
  /\ forall e,
      In e (loop_trace (heartbeat [mismatchWorld; mismatchWorld;
                                   mismatchWorld] (peerAt 2))) ->
      isNotification e = false.
Proof.
  apply (backoff_reaches_zero [mismatchWorld; mismatchWorld; mismatchWorld]
           (peerAt 2)).
  - unfold u64. cbn. lia.
  - assert (refusesAtZero mismatchWorld) as H.
    { split; [reflexivity |]. intros p.
      exists (entriesAt []), (AppendEntriesResponse.mk 2 false 0).
      repeat split. cbn. lia. }
    repeat (apply Forall_cons; [exact H |]). apply Forall_nil.
Defined.

(** X7: while nothing comes back from the peer (the timeout writes first or
    the transport hands back nil), the loop keeps waiting for the next timer
    cycle with the peer unchanged, makes exactly one transport call per
    cycle and writes to neither channel of the node. *)
Theorem unanswered_peer_keeps_loop_waiting (ws : list World) (p : Peer) :
  Forall (unanswered p) ws ->
  loop_status (heartbeat ws p) = Waiting
  /\ loop_peer (heartbeat ws p) = p
  /\ transportCalls (loop_trace (heartbeat ws p)) = List.length ws
  /\ forall e, In e (loop_trace (heartbeat ws p)) -> isNotification e = false.
Proof.
  induction ws as [| w ws IH]; intros Hall.
  - cbn. repeat split. intros e [].
  - inversion Hall as [| w' ws' (Hfire & Hu & req & Hreq & Hr) Hrest]; subst.
    destruct (IH Hrest) as (Hst & Hp & Hn & Hquiet).
    assert (flush w p
            = mkRun p [EvCreateAppendEntriesRequest (prevLogIndex p);
                       EvSendAppendEntriesRequest req]
                    (Returned (0, false, errors_New "Network problem")))
      as Hflush.
    { rewrite (flush_append w p req Hreq). unfold sendFlushRequest.
      rewrite Hr. reflexivity. }
    assert (heartbeat (w :: ws) p
            = after [EvCreateAppendEntriesRequest (prevLogIndex p);
                     EvSendAppendEntriesRequest req]
                    (heartbeat ws p)) as Hturn.
    { rewrite (heartbeat_absorbs w ws p Hfire 0
                 (errors_New "Network problem"));
        try rewrite Hflush; [reflexivity | reflexivity |].
      unfold u64 in Hu. lia. }
    rewrite Hturn. cbn [after loop_status loop_peer loop_trace].
    split; [exact Hst |]. split; [exact Hp |]. split.
    + rewrite transportCalls_app, Hn. reflexivity.
    + intros e Hin. apply in_app_iff in Hin.
      destruct Hin as [[<- | [<- | []]] | Hin]; try reflexivity.
      exact (Hquiet e Hin).
Qed.

Lemma unanswered_peer_keeps_loop_waiting_witness :
  loop_status (heartbeat [timedOutWorld; timedOutWorld] (peerAt 5)) = Waiting
  /\ loop_peer (heartbeat [timedOutWorld; timedOutWorld] (peerAt 5))
     = peerAt 5
  /\ transportCalls
       (loop_trace (heartbeat [timedOutWorld; timedOutWorld] (peerAt 5)))
     = 2%nat
  /\ forall e,
      In e (loop_trace (heartbeat [timedOutWorld; timedOutWorld]
                                  (peerAt 5))) ->
      isNotification e = false.
Proof.
  apply (unanswered_peer_keeps_loop_waiting [timedOutWorld; timedOutWorld]
           (peerAt 5)).
  assert (unanswered (peerAt 5) timedOutWorld) as H.
  { split; [reflexivity |]. split; [unfold u64; cbn; lia |].
    exists (entriesAt [6; 7]). split; reflexivity. }
  repeat (apply Forall_cons; [exact H |]). apply Forall_nil.
Defined.

(** ** Errors at the flush interface *)

(** X11: the error the transport returns with an AppendEntries response
    never reaches the caller of sendFlushRequest: two transports that hand
    back the same response give the same run.  The error returned with a
    Snapshot response always does: whenever sendSnapshotRequest returns for
    a non-nil request, the error it returns is the transport's. *)
Theorem transport_error_only_from_snapshot :
  (forall (w1 w2 : World) (p : Peer) (req : AppendEntriesRequest),
      server w1 = server w2 ->
      timeoutFirst w1 = timeoutFirst w2 ->
      fst (SendAppendEntriesRequest (transporter w1) (server w1) p req)
      = fst (SendAppendEntriesRequest (transporter w2) (server w2) p req) ->
      sendFlushRequest w1 p (Some req) = sendFlushRequest w2 p (Some req))
  /\ (forall (w : World) (p : Peer) (r : SnapshotRequest)
             (t : Z) (s : bool) (e : error),
         outcome (sendSnapshotRequest w p (Some r)) = Returned (t, s, e) ->
         e = snd (SendSnapshotRequest (transporter w) (server w) p r)).
Proof.
  split.
  - intros w1 w2 p req Hsv Hto Hresp.
    assert (raceResponse w1 p req = raceResponse w2 p req) as Hrace.
    { unfold raceResponse. rewrite Hto, Hresp. reflexivity. }
    unfold sendFlushRequest. rewrite Hrace, Hsv. reflexivity.
  - intros w p r t s e. unfold sendSnapshotRequest.
    destruct (SendSnapshotRequest (transporter w) (server w) p r)
      as [[rs |] e0]; cbn [snd].
    + destruct (SnapshotResponse.Success rs); cbn [outcome]; intros H;
        [injection H as _ _ <-; reflexivity | discriminate].
    + cbn [outcome]. intros H. injection H as _ _ <-. reflexivity.
Qed.

Lemma transport_error_only_from_snapshot_witness :
  sendFlushRequest advanceWorld (peerAt 5) (Some (entriesAt [6; 7]))
  = sendFlushRequest
      (firing (appendServer 2 0 (entriesAt [6; 7]))
              (mkTransporter (fun _ _ _ => (okAppend 2, errors_New "late"))
                             (fun _ _ _ => (None, None))))
      (peerAt 5) (Some (entriesAt [6; 7])).
Proof.
  destruct transport_error_only_from_snapshot as [Happend _].
  apply Happend; reflexivity.
Defined.

(** X12: when sendFlushRequest returns a non-nil error, success is false,
    the peer is exactly as it was, and the error is one of "raft.Peer:
    Request required", "Network problem" and "Step down". *)
Theorem append_error_leaves_peer (w : World) (p : Peer)
    (req : option AppendEntriesRequest) (t : Z) (s : bool) (msg : string) :
  outcome (sendFlushRequest w p req) = Returned (t, s, Some msg) ->
  s = false
  /\ peer_after (sendFlushRequest w p req) = p
  /\ (msg = "raft.Peer: Request required"%string
      \/ msg = "Network problem"%string
      \/ msg = "Step down"%string).
Proof.
  destruct req as [r |].
  - destruct (sendFlushRequest_cases w p r)
      as [[_ ->] | (resp & _ & [[_ ->] | [(_ & _ & ->) | (_ & _ & ->)]])];
      cbn [outcome peer_after]; intros H; try discriminate;
      injection H as <- <- <-; auto.
  - cbn [sendFlushRequest outcome peer_after]. intros H.
    injection H as <- <- <-. auto.
Qed.

Lemma append_error_leaves_peer_witness :
  false = false
  /\ peer_after (sendFlushRequest timedOutWorld (peerAt 5)
                                  (Some (entriesAt [6; 7]))) = peerAt 5
  /\ ("Network problem"%string = "raft.Peer: Request required"%string
      \/ "Network problem"%string = "Network problem"%string
      \/ "Network problem"%string = "Step down"%string).
Proof.
  apply (append_error_leaves_peer timedOutWorld (peerAt 5)
           (Some (entriesAt [6; 7])) 0 false "Network problem").
  reflexivity.
Defined.

(** X16: when the node has neither an AppendEntries request nor a snapshot
    request to give, the turn makes no transport call, the peer is
    unchanged, and the loop goes on to the next timer cycle: the "Request
    required" error of the flush is not looked at. *)
Theorem empty_handed_turn_is_skipped (w : World) (ws : list World)
    (p : Peer) :
  timerStart w = true ->
  u64 (currentTerm (server w)) ->
  createAppendEntriesRequest (server w) (prevLogIndex p) = None ->
  createSnapshotRequest (server w) = None ->
  flush w p
  = mkRun p [EvCreateAppendEntriesRequest (prevLogIndex p);
             EvCreateSnapshotRequest]
          (Returned (0, false, errors_New "raft.Peer: Request required"))
  /\ heartbeat (w :: ws) p
     = after [EvCreateAppendEntriesRequest (prevLogIndex p);
              EvCreateSnapshotRequest]
             (heartbeat ws p).
Proof.
  intros Hfire Hu Hnone Hsnap.
  assert (flush w p
          = mkRun p [EvCreateAppendEntriesRequest (prevLogIndex p);
                     EvCreateSnapshotRequest]
                  (Returned (0, false,
                             errors_New "raft.Peer: Request required")))
    as Hflush.
  { rewrite (flush_snapshot w p Hnone), Hsnap. reflexivity. }
  split; [exact Hflush |].
  rewrite (heartbeat_absorbs w ws p Hfire 0
             (errors_New "raft.Peer: Request required"));
    try rewrite Hflush; [reflexivity | reflexivity |].
  unfold u64 in Hu. lia.
Qed.

Lemma empty_handed_turn_is_skipped_witness :
  heartbeat [emptyHandedWorld; newerTermWorld] (peerAt 6)
  = after [EvCreateAppendEntriesRequest 6; EvCreateSnapshotRequest]
          (heartbeat [newerTermWorld] (peerAt 6)).
Proof.
  destruct (empty_handed_turn_is_skipped emptyHandedWorld [newerTermWorld]
              (peerAt 6)) as [_ H].
  - reflexivity.
  - unfold u64. cbn. lia.
  - reflexivity.
  - reflexivity.
  - exact H.
Defined.

(** ** Vote dispatch *)

(** X15: sendVoteRequest calls the transport once, with the request tagged
    with this peer whatever tag it came with; a response goes out on the
    caller's channel exactly when the transport handed back a non-nil one,
    and it is that response tagged with this peer; with a nil response the
    call returns having sent nothing.  A nil request is not guarded: the
    tagging dereferences it before any transport call. *)
Theorem vote_forwarded_iff_answered {Q R : Type} (send : VoteTransport Q R)
    (sv : Server) (received : bool) (p : Peer) (r : RequestVoteRequest.t Q) :
  vote_request (sendVoteRequest send sv received p (Some r))
  = Some (RequestVoteRequest.mk (Some (name p)) (RequestVoteRequest.rest r))
  /\ (exists tail,
         vote_trace (sendVoteRequest send sv received p (Some r))
         = EvSendVoteRequest
             (RequestVoteRequest.mk (Some (name p))
                                    (RequestVoteRequest.rest r))
           :: tail
         /\ forall q, ~ In (EvSendVoteRequest q) tail)
  /\ (forall out,
         In (EvVote out)
            (vote_trace (sendVoteRequest send sv received p (Some r)))
         <-> exists resp,
             fst (send sv p
                       (RequestVoteRequest.mk (Some (name p))
                                              (RequestVoteRequest.rest r)))
             = Some resp
             /\ out = RequestVoteResponse.mk (Some (name p))
                                             (RequestVoteResponse.rest resp))
  /\ (fst (send sv p
                (RequestVoteRequest.mk (Some (name p))
                                       (RequestVoteRequest.rest r)))
      = None ->
      vote_status (sendVoteRequest send sv received p (Some r))
      = VoteReturned)
  /\ sendVoteRequest send sv received p None
     = mkVoteRun None [] VoteNilDereference.
Proof.
  unfold sendVoteRequest.
  destruct (fst (send sv p
                      (RequestVoteRequest.mk (Some (name p))
                                             (RequestVoteRequest.rest r))))
    as [resp |] eqn:Hresp; cbn [vote_request vote_trace vote_status].
  - split; [reflexivity |]. split.
    { eexists. split; [reflexivity |].
      intros q [H | []]. discriminate. }
    split.
    { intros out. split.
      - intros [H | [H | []]]; [discriminate |].
        injection H as <-. exists resp. split; reflexivity.
      - intros (resp' & Heq & ->). injection Heq as <-.
        right. left. reflexivity. }
    split; [discriminate | reflexivity].
  - split; [reflexivity |]. split.
    { exists []. split; [reflexivity |]. intros q []. }
    split.
    { intros out. split.
      - intros [H | []]. discriminate.
      - intros (resp' & Heq & _). discriminate. }
    split; reflexivity.
Qed.

Lemma vote_forwarded_iff_answered_witness :
  vote_status
    (sendVoteRequest (Q := Z) (R := bool)
                     (fun _ _ _ => (None, errors_New "unreachable"))
                     (mkServer 2 0 (fun _ => None) None) true (peerAt 0)
                     (Some (RequestVoteRequest.mk None 3)))
  = VoteReturned.
Proof.
  destruct (vote_forwarded_iff_answered
              (Q := Z) (R := bool)
              (fun _ _ _ => (None, errors_New "unreachable"))
              (mkServer 2 0 (fun _ => None) None) true (peerAt 0)
              (RequestVoteRequest.mk None 3))
    as (_ & _ & _ & H & _).
  apply H. reflexivity.
Defined.

(** ** How the loop ends *)

Lemma turn_stopped (w : World) (p : Peer) :
  loop_status (heartbeat [w] p) = Stopped ->
  timerStart w = false
  \/ exists t b,
      loop_trace (heartbeat [w] p) = trace (flush w p) ++ [EvStepDown t b].
Proof.
  destruct (turn_shape w p) as [Hf | v Hf Ho | t s e Hf Ho _ _ | t e Hf Ho _
                                | t e Hf Ho _];
    cbn [loop_status loop_trace]; intros Hst; try discriminate.
  - left. exact Hf.
  - destruct (responseReceived w); discriminate.
  - right. exists t, (stepDownReady w). reflexivity.
Qed.

(** X18: the loop returns in two ways only: a timer that was stopped, or a
    step-down attempt, which is then the last event of the trace. *)
Theorem loop_returns_on_stop_or_step_down (ws : list World) :
  forall p : Peer,
    loop_status (heartbeat ws p) = Stopped ->
    (exists w, In w ws /\ timerStart w = false)
    \/ exists pre t b, loop_trace (heartbeat ws p) = pre ++ [EvStepDown t b].
Proof.
  induction ws as [| w ws IH]; intros p Hst; [discriminate |].
  rewrite heartbeat_status_cons in Hst. rewrite heartbeat_trace_cons.
  destruct (loop_status (heartbeat [w] p)) eqn:Hturn; try discriminate.
  - destruct (IH _ Hst) as [(w' & Hin & Hoff) | (pre & t & b & Htr)].
    + left. exists w'. split; [right; exact Hin | exact Hoff].
    + right. exists (loop_trace (heartbeat [w] p) ++ pre), t, b.
      rewrite Htr, app_assoc. reflexivity.
  - destruct (turn_stopped w p Hturn) as [Hoff | (t & b & Htr)].
    + left. exists w. split; [left; reflexivity | exact Hoff].
    + right. exists (trace (flush w p)), t, b.
      rewrite Htr, app_nil_r. reflexivity.
Qed.

Lemma loop_returns_on_stop_or_step_down_witness :
  (exists w, In w [mismatchWorld; newerTermWorld] /\ timerStart w = false)
  \/ exists pre t b,
      loop_trace (heartbeat [mismatchWorld; newerTermWorld] (peerAt 7))
      = pre ++ [EvStepDown t b].
Proof.
  apply (loop_returns_on_stop_or_step_down [mismatchWorld; newerTermWorld]
           (peerAt 7)).
  reflexivity.
Defined.
